(** * audmon: the audio-callback pipeline of [cmd/audmon.go]

    The capture callback [Data] of [Execute] reduces one period of unsigned
    8-bit samples to its peak, scales the peak to a volume, throttles the
    displayed volume and resizes the filler segment of the bar.  The closure
    is embedded here function by function, with the names of the source.

    The source computes volumes in [float64].  The callback is translated
    once, over an interface of the float operations it uses, and read in two
    ways: in IEEE 754 binary64, the arithmetic of the program, where the
    peaks are 256 and the displayed values the callback reaches are finitely
    many, so that statements about them are settled by evaluation; and in
    exact rational arithmetic, where statements about all volumes are
    proved.

    The clip tracker of the variant with the clip warning, and the end of
    [Execute] (the UI goroutine and the shutdown sequence), are embedded as
    transition systems. *)

From Stdlib Require Import Strings.Byte Strings.String.
From Stdlib Require Import ZArith NArith QArith Qround Qabs Qminmax Qpower.
From Stdlib Require Import List Bool Lia Lra Psatz Floats Uint63 FMapPositive.
From Stdlib Require Import Permutation.
Import ListNotations.

Set Warnings "-inexact-float".

(** ** Sample buffers: [pSample []byte] *)

Definition uint8 := byte.

Definition u8 (b : uint8) : Z := Z.of_N (Byte.to_N b).

(** [sample > maxSample] on [uint8]. *)
Definition u8_gt (a b : uint8) : bool := (u8 b <? u8 a)%Z.

(** Lines 66-68, the body of the [range] loop: the new [maxSample]. *)
Definition louder (maxSample sample : uint8) : uint8 :=
  if u8_gt sample maxSample then sample else maxSample.

(** Lines 64-69: [var maxSample uint8 = 0], then the loop over [pSample]. *)
Definition maxSample (pSample : list uint8) : uint8 :=
  fold_left louder pSample x00.

(** ** The float operations used by the callback *)

Class Float64 (F : Type) := {
  (** [float64(n)] of an integer. *)
  of_int : Z -> F;
  (** a decimal constant [p/q] of the source text, as the compiler converts it *)
  lit : Z -> positive -> F;
  fadd : F -> F -> F;
  fsub : F -> F -> F;
  fmul : F -> F -> F;
  fdiv : F -> F -> F;
  (** [x < y] *)
  fltb : F -> F -> bool;
  (** [int(math.Floor(x))] *)
  floor_int : F -> Z
}.

Declare Scope f64_scope.
Delimit Scope f64_scope with f64.
Notation "x + y" := (fadd x y) : f64_scope.
Notation "x - y" := (fsub x y) : f64_scope.
Notation "x * y" := (fmul x y) : f64_scope.
Notation "x / y" := (fdiv x y) : f64_scope.
Notation "x <? y" := (fltb x y) : f64_scope.
Notation "x >? y" := (fltb y x) : f64_scope.

Section Callback.
Context {F : Type} `{Float64 F}.
Local Open Scope f64_scope.

(** [math.Pow(x, 2)].  Go's [math.Pow] returns 1 for [x == 1], 0 for
    [x == 0] with a positive even exponent, and otherwise, for the
    exponent 2, squares the mantissa of [x] once and rescales it by a power
    of two: the float product [x * x]. *)
Definition Pow2 (x : F) : F := x * x.

(** [math.Min(x, y)] on numbers: [x] if [x < y], else [y]. *)
Definition Min (x y : F) : F := if x <? y then x else y.

(** Line 73: [volume := math.Min(math.Pow(float64(maxSample)/235, 2), 1)]. *)
Definition volume (maxSample : uint8) : F :=
  Min (Pow2 (of_int (u8 maxSample) / of_int 235)) (of_int 1).

(** Lines 75-82: the throttle, from [prevVolumeDisplayed] and [volume] to
    the new [volumeDisplayed]. *)
Definition volumeDisplayed (prevVolumeDisplayed volume : F) : F :=
  if volume >? prevVolumeDisplayed then
    if (volume - prevVolumeDisplayed) >? lit 5 100
    then prevVolumeDisplayed + lit 5 100
    else volume
  else if (prevVolumeDisplayed - volume) >? lit 5 100
    then prevVolumeDisplayed - lit 5 100
    else volume.

(** Line 88: the length given to [ResizeItem] for [monitorBarFiller],
    [int(math.Floor((1-volumeDisplayed)*float64(barHeight)))]. *)
Definition fillerLength (volumeDisplayed : F) (barHeight : Z) : Z :=
  floor_int ((of_int 1 - volumeDisplayed) * of_int barHeight).

(** One invocation of [Data]: the captured [prevVolumeDisplayed] is read
    and overwritten (line 83); the result is the new value. *)
Definition Data (prevVolumeDisplayed : F) (pSample : list uint8) : F :=
  volumeDisplayed prevVolumeDisplayed (volume (maxSample pSample)).

(** The variable after the callbacks for a sequence of periods, from its
    initial value [var prevVolumeDisplayed float64 = 0] (line 60). *)
Definition run (periods : list (list uint8)) : F :=
  fold_left Data periods (of_int 0).

(** Repeated invocations with the volume held constant. *)
Fixpoint hold (n : nat) (prevVolumeDisplayed volume : F) : F :=
  match n with
  | O => prevVolumeDisplayed
  | S k => hold k (volumeDisplayed prevVolumeDisplayed volume) volume
  end.
End Callback.

(** ** Exact rational arithmetic *)

Definition Qltb (x y : Q) : bool :=
  match x ?= y with Lt => true | _ => false end.

#[export] Instance exact : Float64 Q := {
  of_int := inject_Z;
  lit := Qmake;
  fadd := Qplus;
  fsub := Qminus;
  fmul := Qmult;
  fdiv := Qdiv;
  fltb := Qltb;
  floor_int := Qfloor
}.

(** ** IEEE 754 binary64

    The primitive floats of Rocq are the binary64 numbers of the processor,
    with round-to-nearest-even arithmetic: the [float64] of Go. *)

Module B64.
(** [float64(n)] for an integer below [2^63] in magnitude: the nearest
    binary64, [n] itself below [2^53]. *)
Definition of_Z (n : Z) : float :=
  if (n <? 0)%Z
  then PrimFloat.opp (PrimFloat.of_uint63 (Uint63.of_Z (- n)))
  else PrimFloat.of_uint63 (Uint63.of_Z n).

(** The greatest integer not above a finite float; on the integer
    mantissa, the shift by a negative exponent rounds towards minus
    infinity. *)
Definition floor (x : float) : Z :=
  match Prim2SF x with
  | S754_finite s m e => Z.shiftl (cond_Zopp s (Zpos m)) e
  | _ => 0
  end.

(** The rational a finite float stands for. *)
Definition to_Q (x : float) : Q :=
  match Prim2SF x with
  | S754_finite s m e => inject_Z (cond_Zopp s (Zpos m)) * Qpower 2 e
  | _ => 0
  end.

(** Neither an infinity nor a NaN. *)
Definition finite (x : float) : bool :=
  match Prim2SF x with
  | S754_zero _ | S754_finite _ _ _ => true
  | _ => false
  end.
End B64.

#[export] Instance binary64 : Float64 float := {
  of_int := B64.of_Z;
  lit := fun p q => PrimFloat.div (B64.of_Z p) (B64.of_Z (Zpos q));
  fadd := PrimFloat.add;
  fsub := PrimFloat.sub;
  fmul := PrimFloat.mul;
  fdiv := PrimFloat.div;
  fltb := PrimFloat.ltb;
  floor_int := B64.floor
}.

(** Membership in [[0,1]], by the float comparisons. *)
Definition in_unit64 (x : float) : bool :=
  PrimFloat.leb 0 x && PrimFloat.leb x 1.

(** [x] lies between [a] and [b], whichever is the larger. *)
Definition between64 (a x b : float) : bool :=
  PrimFloat.leb a x && PrimFloat.leb x b || PrimFloat.leb b x && PrimFloat.leb x a.

(** Every value of [uint8], in increasing order. *)
Definition bytes : list uint8 :=
  flat_map
    (fun n => match Byte.of_N (N.of_nat n) with Some b => [b] | None => [] end)
    (seq 0 256).

(** [p] on every value of [uint8]. *)
Definition byte_all (p : uint8 -> bool) : bool := forallb p bytes.

(** [r] on every pair of values of [uint8] and their images by [f]; the
    images are tabulated once. *)
Definition byte_pairs {A : Type} (f : uint8 -> A)
    (r : uint8 -> A -> uint8 -> A -> bool) : bool :=
  let table := map (fun b => (b, f b)) bytes in
  forallb (fun p => forallb (fun q => r (fst p) (snd p) (fst q) (snd q)) table) table.

(** ** The displayed volumes the callback reaches, in binary64

    From 0, the throttle only ever returns the volume of some peak or the
    previous value moved by one step; with 256 peaks the values reached are
    finitely many.  A table that holds them all is computed here by a
    search; that no callback leaves the table is proved below. *)

Module Reach.
(** The step [0.05] as a [float64]. *)
Definition step : float := Eval vm_compute in lit 5 100.

(** The volume of every peak. *)
Definition raws : list float := Eval vm_compute in map (volume (F:=float)) bytes.

(** [volumeDisplayed] for a given step. *)
Definition throttle (c prev raw : float) : float :=
  if PrimFloat.ltb prev raw then
    if PrimFloat.ltb c (PrimFloat.sub raw prev)
    then PrimFloat.add prev c
    else raw
  else if PrimFloat.ltb c (PrimFloat.sub prev raw)
    then PrimFloat.sub prev c
    else raw.

(** [hold] for a given step. *)
Fixpoint wait (c : float) (n : nat) (prev raw : float) : float :=
  match n with
  | O => prev
  | S k => wait c k (throttle c prev raw) raw
  end.

(** Some volume makes the throttle step up, or down, from [s]. *)
Definition rises (s : float) : bool :=
  existsb (fun r => PrimFloat.ltb s r && PrimFloat.ltb step (PrimFloat.sub r s)) raws.

Definition falls (s : float) : bool :=
  existsb (fun r => negb (PrimFloat.ltb s r) && PrimFloat.ltb step (PrimFloat.sub s r)) raws.

(** Where a float is filed: its mantissa and exponent in one number. *)
Definition key (x : float) : positive :=
  match Prim2SF x with
  | S754_finite _ m e => (m * 2048 + Z.to_pos (e + 1075))%positive
  | _ => 1%positive
  end.

Definition table := PositiveMap.t float.

Definition mem (x : float) (t : table) : bool :=
  match PositiveMap.find (key x) t with
  | Some y => PrimFloat.Leibniz.eqb x y
  | None => false
  end.

(** File [x] unless it is there; the second component collects what is new. *)
Definition file (acc : table * list float) (x : float) : table * list float :=
  if mem x (fst acc) then acc
  else (PositiveMap.add (key x) x (fst acc), x :: snd acc).

Definition moves (s : float) : list float :=
  (if rises s then [PrimFloat.add s step] else []) ++
  (if falls s then [PrimFloat.sub s step] else []).

(** Breadth-first search from the values of [frontier]. *)
Fixpoint explore (fuel : nat) (frontier : list float) (seen : table) : table :=
  match fuel with
  | O => seen
  | S k =>
      let found := fold_left file (flat_map moves frontier) (seen, []) in
      match snd found with
      | [] => fst found
      | fresh => explore k fresh (fst found)
      end
  end.

(** The values reached: 0, the volumes, and what the steps lead to. *)
Definition reach : table :=
  Eval vm_compute in
    let start := fold_left file (0%float :: raws) (PositiveMap.empty float, []) in
    explore 100 (snd start) (fst start).

Definition reached (x : float) : bool := mem x reach.

(** [p] on every value of the table. *)
Definition everywhere (p : float -> bool) : bool :=
  forallb (fun kv => p (snd kv)) (PositiveMap.elements reach).
End Reach.

(** ** The float subtraction of line 88

    What [1 - v] gives at a displayed value [v] of [[0,1]]: zero, at
    [v = 1], or a positive normal number, at most 1 and within [2^-54] of the
    exact difference. *)
Definition complement_ok (v : float) : bool :=
  Qle_bool 0 (B64.to_Q v) && Qle_bool (B64.to_Q v) 1 &&
  match Prim2SF (PrimFloat.sub 1 v) with
  | S754_zero _ => Qeq_bool (B64.to_Q v) 1
  | S754_finite false m e =>
      Pos.eqb (digits2_pos m) 53 && (-200 <=? e)%Z && (e <=? -52)%Z &&
      Qle_bool (Qabs (B64.to_Q (PrimFloat.sub 1 v) - (1 - B64.to_Q v)))
               (1 # 2 ^ 54) &&
      Qle_bool (B64.to_Q (PrimFloat.sub 1 v)) 1
  | _ => false
  end.

(** ** The bar length in the words of the specification

    The specification computes the bar length with [round]; these
    definitions follow its words, to be compared with line 88. *)

(** [z] is an integer nearest to [q], whatever the rule for ties. *)
Definition nearest (z : Z) (q : Q) : Prop := Qabs (q - inject_Z z) <= 1 # 2.

(** Rounding to the nearest integer, ties upwards. *)
Definition round (q : Q) : Z := Qfloor (q + (1 # 2)).

(** The specification's [round((1 - volume) * total_bar_length)]. *)
Definition spec_bar_length (volume : Q) (total_bar_length : Z) : Z :=
  round ((1 - volume) * inject_Z total_bar_length).

(** ** The clip tracker of the variant with the clip warning

    [recentClippingTracker] and [IndicateClippingOccured].  Every call
    declares a fresh variable [cancelled], captured by the closure stored in
    [cancelPendingReset] and by the goroutine that sleeps: the variables are
    the cells of a list, and a closure is the index of its cell.  Time is
    explicit, in nanoseconds; [time.Sleep(d)] returns no earlier than [d]
    after the call.  The calls of the callback and the steps of the
    goroutines are interleaved.  Nothing synchronizes a goroutine with the
    callback, so that a goroutine takes two steps: it tests [cancelled] when
    its sleep has returned, and it assigns [c.ClippedRecently] afterwards;
    the callback can run between the two. *)

Module Clip.
(** [volumeClipWarningDuration = time.Second * 3] *)
Definition volumeClipWarningDuration : Z := 1000000000 * 3.

(** A goroutine of [IndicateClippingOccured]: the instant from which its
    sleep may return, and the cell of its [cancelled]. *)
Record sleeper := { wake_from : Z; captured : nat }.

Record world := {
  now : Z;
  (** the fields of [recentClippingTracker] *)
  ClippedRecently : bool;
  cancelPendingReset : option nat;
  (** the variables [cancelled] declared so far *)
  cancelled : list bool;
  (** the goroutines inside [time.Sleep] *)
  asleep : list sleeper;
  (** the goroutines that have found [!cancelled] true and have not yet
      assigned [c.ClippedRecently = false] *)
  resetting : list sleeper
}.

(** [clippingTracker := recentClippingTracker{}] at the instant [t]. *)
Definition start (t : Z) : world :=
  {| now := t; ClippedRecently := false; cancelPendingReset := None;
     cancelled := []; asleep := []; resetting := [] |}.

(** [cancelled = true] on the cell [i]. *)
Fixpoint set_true (i : nat) (cells : list bool) : list bool :=
  match cells, i with
  | [], _ => []
  | _ :: rest, O => true :: rest
  | c :: rest, S j => c :: set_true j rest
  end.

Definition IndicateClippingOccured (w : world) : world :=
  let cells :=
    match cancelPendingReset w with
    | Some i => set_true i (cancelled w)
    | None => cancelled w
    end in
  let fresh := List.length cells in
  {| now := now w;
     ClippedRecently := true;
     cancelPendingReset := Some fresh;
     cancelled := cells ++ [false];
     asleep := asleep w ++
               [{| wake_from := now w + volumeClipWarningDuration;
                   captured := fresh |}];
     resetting := resetting w |}.

(** [if maxSample == 240 { clippingTracker.IndicateClippingOccured() }] *)
Definition clips (pSample : list uint8) : bool := (u8 (maxSample pSample) =? 240)%Z.

Definition callback (pSample : list uint8) (w : world) : world :=
  if clips pSample then IndicateClippingOccured w else w.

(** A goroutine whose sleep has returned evaluates [if !cancelled]: with
    [cancelled] set it ends, otherwise the assignment is what it does
    next. *)
Definition test (g : sleeper) (w : world) : world :=
  {| now := now w;
     ClippedRecently := ClippedRecently w;
     cancelPendingReset := cancelPendingReset w;
     cancelled := cancelled w;
     asleep := asleep w;
     resetting :=
       if nth (captured g) (cancelled w) false then resetting w
       else resetting w ++ [g] |}.

(** [c.ClippedRecently = false] *)
Definition reset (w : world) : world :=
  {| now := now w;
     ClippedRecently := false;
     cancelPendingReset := cancelPendingReset w;
     cancelled := cancelled w;
     asleep := asleep w;
     resetting := resetting w |}.

Fixpoint remove_nth {A : Type} (i : nat) (l : list A) : list A :=
  match l, i with
  | [], _ => []
  | _ :: rest, O => rest
  | x :: rest, S j => x :: remove_nth j rest
  end.

Inductive event :=
| Elapse (dt : Z)               (** time passes *)
| Period (pSample : list uint8) (** the driver delivers a period *)
| Wake (i : nat)                (** the sleep of the [i]-th sleeping goroutine
                                    returns and the goroutine tests [cancelled] *)
| Reset (j : nat).              (** the [j]-th goroutine past its test assigns *)

(** One step; [None] when the event cannot happen: time does not go back,
    and a sleep does not return before its duration has passed. *)
Definition step (w : world) (e : event) : option world :=
  match e with
  | Elapse dt =>
      if (0 <=? dt)%Z then
        Some {| now := now w + dt; ClippedRecently := ClippedRecently w;
                cancelPendingReset := cancelPendingReset w;
                cancelled := cancelled w; asleep := asleep w;
                resetting := resetting w |}
      else None
  | Period pSample => Some (callback pSample w)
  | Wake i =>
      match nth_error (asleep w) i with
      | Some g =>
          if (wake_from g <=? now w)%Z then
            Some (test g {| now := now w; ClippedRecently := ClippedRecently w;
                            cancelPendingReset := cancelPendingReset w;
                            cancelled := cancelled w;
                            asleep := remove_nth i (asleep w);
                            resetting := resetting w |})
          else None
      | None => None
      end
  | Reset j =>
      match nth_error (resetting w) j with
      | Some _ =>
          Some (reset {| now := now w; ClippedRecently := ClippedRecently w;
                         cancelPendingReset := cancelPendingReset w;
                         cancelled := cancelled w; asleep := asleep w;
                         resetting := remove_nth j (resetting w) |})
      | None => None
      end
  end.

Fixpoint steps (w : world) (es : list event) : option world :=
  match es with
  | [] => Some w
  | e :: rest =>
      match step w e with
      | Some w' => steps w' rest
      | None => None
      end
  end.

(** An event that is not a clip event. *)
Definition quiet (e : event) : bool :=
  match e with
  | Period pSample => negb (clips pSample)
  | _ => true
  end.

(** The goroutine of a call at the instant [t] that captured the cell
    [n]. *)
Definition sleeper_of (t : Z) (n : nat) : sleeper :=
  {| wake_from := t + volumeClipWarningDuration; captured := n |}.

(** After one clip event at [t0] and quiet events only: the one goroutine
    is still asleep and the flag is up; or its sleep has returned, not before
    [t0] plus the duration, it has passed its test and the flag is still up;
    or it has assigned and the flag is down. *)
Definition after_one_clip (t0 : Z) (w : world) : Prop :=
  (t0 <= now w)%Z /\
  cancelled w = [false] /\
  ((asleep w = [sleeper_of t0 0] /\ resetting w = [] /\
    ClippedRecently w = true) \/
   (asleep w = [] /\ resetting w = [sleeper_of t0 0] /\
    ClippedRecently w = true /\ (t0 + volumeClipWarningDuration <= now w)%Z) \/
   (asleep w = [] /\ resetting w = [] /\ ClippedRecently w = false /\
    (t0 + volumeClipWarningDuration <= now w)%Z)).

(** Before any clip event. *)
Definition untouched (w : world) : Prop :=
  cancelled w = [] /\ cancelPendingReset w = None /\ asleep w = [] /\
  resetting w = [] /\ ClippedRecently w = false.
End Clip.

(** ** The end of [Execute]: the UI goroutine and the shutdown sequence

    Lines 97-113.  The main goroutine and the goroutine that runs the UI
    take their steps one at a time, in any order; [done] is the channel
    [make(chan os.Signal, 1)], to which [signal.Notify] also relays the
    signals of the operating system, dropping one that finds it full.
    [log.Fatalf] is a call of the logger followed by [os.Exit(1)], two steps
    between which the other goroutine can move.  A panic of the main
    goroutine runs the deferred call of lines 42-45 and ends the process with
    status 2. *)

Module Shutdown.
Inductive signal := SIGINT | SIGTERM.

(** What the process does that the outside sees.  [Log] is a message
    handed to the standard logger by [log.Printf] or [log.Fatalf]
    ([main] sets the output of that logger to [io.Discard]). *)
Inductive effect :=
| Log (message : string)
| DeviceUninit
| AppStop        (** [app.Stop()] has returned *)
| Panic          (** [app.Stop()] has panicked *)
| ContextUninit  (** the deferred [ctx.Uninit(); ctx.Free()] *)
| Exit (code : Z).

(** Where the main goroutine stands, from line 99 on. *)
Inductive main_pc :=
| AtGo       (** line 99, [go func() {...}()] *)
| AtStart    (** line 105, [device.Start()] *)
| AtFatal    (** line 106, inside [log.Fatalf]: logged, before [os.Exit(1)] *)
| AtReceive  (** line 110, [<-done] *)
| AtUninit   (** line 111, [device.Uninit()] *)
| AtStop     (** line 112, [app.Stop()] *)
| AtExit     (** line 113, [os.Exit(0)] *)
| AtDefer    (** [app.Stop()] has panicked: the deferred call is next *)
| AtCrash    (** the deferred call has run: the runtime exits *)
| Gone.      (** the process has exited *)

(** Where the UI goroutine stands. *)
Inductive ui_pc :=
| NotStarted
| InRun                   (** line 100, inside [Run()] *)
| AtLog (err : string)    (** line 101, [Run] has returned [err != nil] *)
| AtSend                  (** line 103, [done <- syscall.SIGTERM] *)
| Finished.

(** What the collaborators answer: the error of [Run], if any; the error
    of [device.Start], if any; and whether [app.Stop()], when it is called,
    panics instead of returning.  (The library's [Stop] finalizes the screen
    that [Run] has made; it does so too when [Run] has failed while
    initializing that screen, and the finalization of a screen that was never
    initialized panics.) *)
Record environment := {
  run_error : option string;
  start_error : option string;
  stop_panics : bool
}.

Record process := {
  main : main_pc;
  ui : ui_pc;
  done : list signal;
  effects : list effect;
  status : option Z
}.

Definition initial : process :=
  {| main := AtGo; ui := NotStarted; done := []; effects := []; status := None |}.

Inductive choice :=
| Main                (** the main goroutine takes a step *)
| UI                  (** the UI goroutine takes a step *)
| Deliver (s : signal). (** the operating system sends a signal *)

(** A send on the channel of capacity 1; [None] when it is full. *)
Definition offer (s : signal) (ch : list signal) : option (list signal) :=
  match ch with
  | [] => Some [s]
  | _ => None
  end.

Definition main_step (env : environment) (p : process) : process :=
  match main p with
  | AtGo =>
      {| main := AtStart; ui := InRun; done := done p;
         effects := effects p; status := status p |}
  | AtStart =>
      match start_error env with
      | Some err =>
          (** [log.Fatalf], the message *)
          {| main := AtFatal; ui := ui p; done := done p;
             effects := effects p ++
               [Log (String.append "failed to start audio capture device: " err)];
             status := status p |}
      | None =>
          {| main := AtReceive; ui := ui p; done := done p;
             effects := effects p; status := status p |}
      end
  | AtFatal =>
      (** [log.Fatalf], [os.Exit(1)] *)
      {| main := Gone; ui := ui p; done := done p;
         effects := effects p ++ [Exit 1]; status := Some 1%Z |}
  | AtReceive =>
      match done p with
      | [] => p
      | _ :: rest =>
          {| main := AtUninit; ui := ui p; done := rest;
             effects := effects p; status := status p |}
      end
  | AtUninit =>
      {| main := AtStop; ui := ui p; done := done p;
         effects := effects p ++ [DeviceUninit]; status := status p |}
  | AtStop =>
      if stop_panics env then
        {| main := AtDefer; ui := ui p; done := done p;
           effects := effects p ++ [Panic]; status := status p |}
      else
        {| main := AtExit; ui := ui p; done := done p;
           effects := effects p ++ [AppStop]; status := status p |}
  | AtExit =>
      {| main := Gone; ui := ui p; done := done p;
         effects := effects p ++ [Exit 0]; status := Some 0%Z |}
  | AtDefer =>
      {| main := AtCrash; ui := ui p; done := done p;
         effects := effects p ++ [ContextUninit]; status := status p |}
  | AtCrash =>
      {| main := Gone; ui := ui p; done := done p;
         effects := effects p ++ [Exit 2]; status := Some 2%Z |}
  | Gone => p
  end.

Definition ui_step (env : environment) (p : process) : process :=
  match ui p with
  | NotStarted => p
  | InRun =>
      {| main := main p;
         ui := match run_error env with Some err => AtLog err | None => AtSend end;
         done := done p; effects := effects p; status := status p |}
  | AtLog err =>
      {| main := main p; ui := AtSend; done := done p;
         effects := effects p ++ [Log (String.append "closed unsuccessfully: " err)];
         status := status p |}
  | AtSend =>
      match offer SIGTERM (done p) with
      | Some ch =>
          {| main := main p; ui := Finished; done := ch;
             effects := effects p; status := status p |}
      | None => p
      end
  | Finished => p
  end.

Definition deliver (s : signal) (p : process) : process :=
  match offer s (done p) with
  | Some ch =>
      {| main := main p; ui := ui p; done := ch;
         effects := effects p; status := status p |}
  | None => p
  end.

(** One step of the process; nothing runs once it has exited, and a
    goroutine that is blocked stays where it is. *)
Definition step (env : environment) (p : process) (c : choice) : process :=
  match status p with
  | Some _ => p
  | None =>
      match c with
      | Main => main_step env p
      | UI => ui_step env p
      | Deliver s => deliver s p
      end
  end.

Definition run (env : environment) (p : process) (cs : list choice) : process :=
  fold_left (step env) cs p.

Definition is_deliver (c : choice) : bool :=
  match c with Deliver _ => true | _ => false end.

Definition is_log (e : effect) : bool :=
  match e with Log _ => true | _ => false end.

(** The steps of the shutdown among the effects. *)
Definition shutdown_path (es : list effect) : list effect :=
  filter (fun e => negb (is_log e)) es.

(** [Run] fails with [err]; the device starts; [app.Stop()] panics or
    not. *)
Definition ui_fails (err : string) (panics : bool) : environment :=
  {| run_error := Some err; start_error := None; stop_panics := panics |}.

(** Nothing fails. *)
Definition all_well : environment :=
  {| run_error := None; start_error := None; stop_panics := false |}.

(** Every goroutine that can move is given the steps it needs to finish. *)
Definition to_the_end : list choice :=
  [Main; UI; UI; UI; Main; Main; Main; Main; Main; Main].

(** The way out of the main goroutine once it has received from [done]. *)
Definition ending (panics : bool) : list effect :=
  if panics then [DeviceUninit; Panic; ContextUninit; Exit 2]
  else [DeviceUninit; AppStop; Exit 0].

(** The shutdown effects of the main goroutine when it stands at a point. *)
Definition main_effects (panics : bool) (pc : main_pc) : list effect :=
  match pc with
  | AtGo | AtStart | AtFatal | AtReceive | AtUninit => []
  | AtStop => [DeviceUninit]
  | AtExit => [DeviceUninit; AppStop]
  | AtDefer => [DeviceUninit; Panic]
  | AtCrash => [DeviceUninit; Panic; ContextUninit]
  | Gone => ending panics
  end.

(** The messages of the UI goroutine when it stands at a point. *)
Definition ui_effects (err : string) (pc : ui_pc) : list effect :=
  match pc with
  | NotStarted | InRun | AtLog _ => []
  | AtSend | Finished => [Log (String.append "closed unsuccessfully: " err)]
  end.

(** [Run] returns [answer]; the device starts; [app.Stop()] panics or
    not. *)
Definition started (answer : option string) (panics : bool) : environment :=
  {| run_error := answer; start_error := None; stop_panics := panics |}.

(** What holds of the process at every moment when the device starts. *)
Definition sound (answer : option string) (panics : bool) (p : process) : Prop :=
  shutdown_path (effects p) = main_effects panics (main p) /\
  status p = match main p with
             | Gone => Some (if panics then 2 else 0)%Z
             | _ => None
             end /\
  match ui p with AtLog err => answer = Some err | _ => True end /\
  match main p, ui p with
  | AtGo, NotStarted => True
  | AtGo, _ => False
  | _, NotStarted => False
  | (AtStart | AtReceive), Finished => done p <> []
  | AtFatal, _ => False
  | AtExit, _ => panics = false
  | (AtDefer | AtCrash), _ => panics = true
  | _, _ => True
  end.

(** What holds moreover when [Run] fails with [err] and no signal has
    been delivered: the message comes first, and the main goroutine gets
    past [<-done] only on the send of the UI goroutine. *)
Definition orderly (err : string) (panics : bool) (p : process) : Prop :=
  match main p with
  | AtGo | AtStart | AtFatal | AtReceive =>
      effects p = ui_effects err (ui p) /\
      done p = match ui p with Finished => [SIGTERM] | _ => [] end
  | _ =>
      ui p = Finished /\ done p = [] /\
      effects p = ui_effects err Finished ++ main_effects panics (main p)
  end.
End Shutdown.

(** ** The callback of the variant with the clip warning

    The scaler and the throttle of that version ([Makefile], lines 126-140
    of its copy of [cmd/audmon.go]), over the same float operations, and the
    update of the background colour (lines 145-152). *)

Module Warn.
Section Callback.
Context {F : Type} `{Float64 F}.
Local Open Scope f64_scope.

(** [math.Max(x, y)] on numbers: [x] if [x > y], else [y]. *)
Definition Max (x y : F) : F := if x >? y then x else y.

(** [maxSample-120], a difference of [uint8]: modulo 256. *)
Definition minus120 (maxSample : uint8) : Z := (u8 maxSample - 120) mod 256.

(** [volume := math.Max(math.Min(float64(maxSample-120)/120, 1), 0)] *)
Definition volume (maxSample : uint8) : F :=
  Max (Min (of_int (minus120 maxSample) / of_int 120) (of_int 1)) (of_int 0).

(** The smoothing, from [prevVolumeDisplayed] and [volume] to the new
    [volumeDisplayed]. *)
Definition volumeDisplayed (prevVolumeDisplayed volume : F) : F :=
  if volume >? prevVolumeDisplayed then
    let extraVolume := volume - prevVolumeDisplayed in
    if extraVolume >? lit 2 100
    then prevVolumeDisplayed + extraVolume / of_int 3
    else volume
  else
    let lostVolume := prevVolumeDisplayed - volume in
    if lostVolume >? lit 2 100
    then prevVolumeDisplayed - lostVolume / of_int 3
    else volume.

Definition Data (prevVolumeDisplayed : F) (pSample : list uint8) : F :=
  volumeDisplayed prevVolumeDisplayed (volume (maxSample pSample)).

Definition run (periods : list (list uint8)) : F :=
  fold_left Data periods (of_int 0).

(** Repeated invocations with the volume held constant. *)
Fixpoint hold (n : nat) (prevVolumeDisplayed volume : F) : F :=
  match n with
  | O => prevVolumeDisplayed
  | S k => hold k (volumeDisplayed prevVolumeDisplayed volume) volume
  end.
End Callback.

(** The widest gap that [S n] invocations close in exact arithmetic:
    0.02 for one, and one half more for each further one. *)
Fixpoint span (n : nat) : Q :=
  match n with
  | O => 2 # 100
  | S k => (3 # 2) * span k
  end.

(** The colours of [tcell] that the code names, and any other. *)
Inductive Color :=
| ColorDefault
| ColorRed
| ColorGreen
| ColorOther (code : nat).

Definition backgroundColorClipping : Color := ColorRed.

Definition is_clipping_color (c : Color) : bool :=
  match c with ColorRed => true | _ => false end.

(** Lines 145-152: the background of [monitorBarFiller] after the update,
    from its current colour and [clippingTracker.ClippedRecently]. *)
Definition updateBackground (curBackgroundColor : Color) (ClippedRecently : bool)
    : Color :=
  if is_clipping_color curBackgroundColor then
    if negb ClippedRecently then ColorDefault else curBackgroundColor
  else if ClippedRecently then backgroundColorClipping
  else curBackgroundColor.

(** From rest at [a], with [b] held: the displayed value stays between the
    two at each of [n] invocations and equals [b] after them. *)
Fixpoint follows (n : nat) (a b prev : float) : bool :=
  match n with
  | O => PrimFloat.Leibniz.eqb prev b
  | S k => between64 a prev b && follows k a b (volumeDisplayed prev b)
  end.
End Warn.

(** ** The clip tracker over any events *)

Module ClipHistory.
Import Clip.

(** The clock after the events, and the instant of the last clip event. *)
Fixpoint history (t : Z) (last : option Z) (es : list event) : Z * option Z :=
  match es with
  | [] => (t, last)
  | Elapse dt :: rest => history (t + dt) last rest
  | Period pSample :: rest =>
      history t (if clips pSample then Some t else last) rest
  | Wake _ :: rest => history t last rest
  | Reset _ :: rest => history t last rest
  end.

(** No clip event of [es] falls between the test and the assignment of a
    goroutine. *)
Fixpoint unraced (w : world) (es : list event) : bool :=
  match es with
  | [] => true
  | e :: rest =>
      match e with
      | Period pSample =>
          negb (clips pSample) ||
          match resetting w with [] => true | _ => false end
      | _ => true
      end &&
      match step w e with
      | Some w' => unraced w' rest
      | None => true
      end
  end.

(** The goroutines of a list that captured the cell [n]. *)
Definition holders (n : nat) (gs : list sleeper) : list sleeper :=
  filter (fun g => Nat.eqb (captured g) n) gs.

(** What holds after [S n] clip events, the last at [t]: the cells of the
    earlier calls are cancelled and that of the last is not; no goroutine
    holds a later cell; the goroutine of the last call is asleep, or it has
    passed its test, or it has assigned, and then the flag is down. *)
Definition armed (n : nat) (t : Z) (w : world) : Prop :=
  cancelled w = repeat true n ++ [false] /\
  cancelPendingReset w = Some n /\
  Forall (fun g => (captured g <= n)%nat) (asleep w) /\
  Forall (fun g => (captured g <= n)%nat) (resetting w) /\
  (t <= now w)%Z /\
  ((holders n (asleep w) = [sleeper_of t n] /\ holders n (resetting w) = []) \/
   (holders n (asleep w) = [] /\ holders n (resetting w) = [sleeper_of t n] /\
    (t + volumeClipWarningDuration <= now w)%Z) \/
   (holders n (asleep w) = [] /\ holders n (resetting w) = [] /\
    ClippedRecently w = false /\
    (t + volumeClipWarningDuration <= now w)%Z)).

(** What holds moreover when no clip event fell between a test and an
    assignment: only the goroutine of the last call is past its test, and
    the flag is up until it has assigned. *)
Definition calm (n : nat) (w : world) : Prop :=
  Forall (fun g => captured g = n) (resetting w) /\
  (holders n (asleep w) ++ holders n (resetting w) <> [] ->
   ClippedRecently w = true).

(** What holds at any moment: nothing has clipped yet, or [armed]. *)
Definition tracked (last : option Z) (w : world) : Prop :=
  match last with
  | None => untouched w
  | Some t => exists n, armed n t w
  end.

Definition tracked_calm (last : option Z) (w : world) : Prop :=
  match last with
  | None => untouched w
  | Some t => exists n, armed n t w /\ calm n w
  end.
End ClipHistory.

(** ** The whole of [Execute]

    Lines 27-94 before the goroutines: the command line, the flags, the
    audio context, the capture device.  [flag.Parse] parses with
    [flag.ExitOnError]: on a command line it does not accept it prints the
    usage and exits.  [log.Fatalf] logs and exits with status 1; no other
    goroutine of the program runs yet.  An exit does not run the deferred
    calls. *)

Module Startup.
(** What the collaborators answer.  [flag_parse] is the status with which
    [flag.Parse] exits, if it does (2 when it refuses the command line). *)
Record answers := {
  flag_parse : option Z;
  flagVersion : bool;
  Version : string;
  context_error : option string;
  device_error : option string;
  run_error : option string;
  start_error : option string;
  stop_panics : bool
}.

Inductive effect :=
| Usage                      (** [flag.Parse], the usage message *)
| Print (text : string)      (** [fmt.Printf] *)
| Log (message : string)     (** [log.Fatalf], the message *)
| InitContext                (** [malgo.InitContext] succeeded *)
| InitDevice                 (** [malgo.InitDevice] succeeded *)
| Exit (code : Z).

(** Lines 27-94: the effects, and whether [Execute] goes on. *)
Definition prologue (a : answers) : list effect * bool :=
  match flag_parse a with
  | Some code => ([Usage; Exit code], false)
  | None =>
      if flagVersion a then
        ([Print (String.append "audmon " (String.append (Version a) (String (Ascii.ascii_of_nat 10) EmptyString)));
          Exit 0], false)
      else
        match context_error a with
        | Some err =>
            ([Log (String.append "failed to initialize malgo context: " err);
              Exit 1], false)
        | None =>
            match device_error a with
            | Some err =>
                ([InitContext;
                  Log (String.append "failed to initialize audio capture device: " err);
                  Exit 1], false)
            | None => ([InitContext; InitDevice], true)
            end
        end
  end.

Definition environment (a : answers) : Shutdown.environment :=
  {| Shutdown.run_error := run_error a; Shutdown.start_error := start_error a;
     Shutdown.stop_panics := stop_panics a |}.

(** The status with which the process has exited, if it has, when the
    goroutines take the steps [cs]. *)
Definition exit_status (a : answers) (cs : list Shutdown.choice) : option Z :=
  if snd (prologue a)
  then Shutdown.status (Shutdown.run (environment a) Shutdown.initial cs)
  else match last (fst (prologue a)) (Exit 0) with
       | Exit code => Some code
       | _ => None
       end.

(** Some step of the initialization fails. *)
Definition fails (a : answers) : bool :=
  match context_error a, device_error a, start_error a with
  | None, None, None => false
  | _, _, _ => true
  end.
End Startup.

(** ** The end of [Execute] when [device.Start] fails *)

Module StartFailure.
Import Shutdown.

(** [Run] returns [answer]; [device.Start] fails with [err]. *)
Definition refused (answer : option string) (err : string) (panics : bool)
  : environment :=
  {| run_error := answer; start_error := Some err; stop_panics := panics |}.

(** The message of [log.Fatalf] at line 106. *)
Definition failure (err : string) : effect :=
  Log (String.append "failed to start audio capture device: " err).

(** What holds at every moment then: the main goroutine is before
    [device.Start] and nothing of the shutdown has happened; or it is inside
    [log.Fatalf], the message logged, with at most messages of the UI
    goroutine after it; or it has exited with status 1. *)
Definition failing (err : string) (p : process) : Prop :=
  match main p with
  | AtGo => ui p = NotStarted /\ status p = None /\ shutdown_path (effects p) = []
  | AtStart => ui p <> NotStarted /\ status p = None /\ shutdown_path (effects p) = []
  | AtFatal =>
      ui p <> NotStarted /\ status p = None /\
      exists before between,
        effects p = before ++ failure err :: between /\
        forallb is_log before = true /\ forallb is_log between = true
  | Gone =>
      status p = Some 1%Z /\
      exists before between,
        effects p = before ++ failure err :: between ++ [Exit 1] /\
        forallb is_log before = true /\ forallb is_log between = true
  | _ => False
  end.
End StartFailure.

(** ** What sets the shutdown off *)

Module Cause.
Import Shutdown.




End Cause.

(** * Properties *)

(** ** Bytes *)

Lemma u8_range (b : uint8) : (0 <= u8 b <= 255)%Z.
Proof. unfold u8. pose proof (Byte.to_N_bounded b). lia. Qed.

Lemma u8_inj (a b : uint8) : u8 a = u8 b -> a = b.
Proof.
  unfold u8. intros E. apply N2Z.inj in E.
  pose proof (Byte.of_to_N a) as Ha.
  rewrite E, Byte.of_to_N in Ha. congruence.
Qed.

Lemma In_bytes (b : uint8) : In b bytes.
Proof.
  unfold bytes. apply in_flat_map.
  exists (N.to_nat (Byte.to_N b)). split.
  - apply in_seq. pose proof (Byte.to_N_bounded b). lia.
  - rewrite N2Nat.id, Byte.of_to_N. now left.
Qed.

Lemma byte_all_spec (p : uint8 -> bool) :
  byte_all p = true -> forall b, p b = true.
Proof.
  unfold byte_all. intros Hall b.
  rewrite forallb_forall in Hall. apply Hall, In_bytes.
Qed.

Lemma byte_pairs_spec {A : Type} (f : uint8 -> A) r :
  byte_pairs f r = true -> forall a b, r a (f a) b (f b) = true.
Proof.
  unfold byte_pairs. intros Hall a b.
  rewrite forallb_forall in Hall.
  assert (forall c, In (c, f c) (map (fun b => (b, f b)) bytes)) as Hin.
  { intros c. apply (in_map (fun b => (b, f b))), In_bytes. }
  specialize (Hall _ (Hin a)). rewrite forallb_forall in Hall.
  exact (Hall _ (Hin b)).
Qed.

(** ** The peak of a period *)

Lemma louder_cases (acc s : uint8) :
  (louder acc s = s /\ (u8 acc < u8 s)%Z) \/
  (louder acc s = acc /\ (u8 s <= u8 acc)%Z).
Proof.
  unfold louder, u8_gt. destruct (Z.ltb_spec (u8 acc) (u8 s)); auto.
Qed.

(** The loop never loses the running maximum, dominates every sample seen,
    and ends on the initial value or on one of the samples. *)
Lemma loop_invariant (pSample : list uint8) :
  forall acc,
    (u8 acc <= u8 (fold_left louder pSample acc))%Z /\
    (forall s, In s pSample -> (u8 s <= u8 (fold_left louder pSample acc))%Z) /\
    (fold_left louder pSample acc = acc \/ In (fold_left louder pSample acc) pSample).
Proof.
  induction pSample as [|x rest IH]; intros acc; simpl.
  - repeat split; [lia | tauto | auto].
  - destruct (IH (louder acc x)) as (Hacc & Hall & Hin).
    destruct (louder_cases acc x) as [[E Hlt] | [E Hle]]; rewrite E in *.
    + repeat split.
      * lia.
      * intros s [<- | Hs]; [exact Hacc | exact (Hall s Hs)].
      * destruct Hin as [-> | Hin]; auto.
    + repeat split.
      * exact Hacc.
      * intros s [<- | Hs]; [lia | exact (Hall s Hs)].
      * destruct Hin as [-> | Hin]; auto.
Qed.

(** C3: on a non-empty buffer [maxSample] is an element of the buffer that
    no element exceeds, that is, its maximum; on a buffer whose elements all
    equal [v] it is [v], and on the one-element buffer [[v]] it is [v]. *)
Theorem maxSample_is_maximum (pSample : list uint8) (Hne : pSample <> []) :
  In (maxSample pSample) pSample /\
  (forall s, In s pSample -> (u8 s <= u8 (maxSample pSample))%Z) /\
  (forall v, Forall (eq v) pSample -> maxSample pSample = v) /\
  (forall v, pSample = [v] -> maxSample pSample = v).
Proof.
  unfold maxSample.
  destruct (loop_invariant pSample x00) as (_ & Hall & Hin).
  assert (Hmem : In (fold_left louder pSample x00) pSample).
  { destruct Hin as [E | Hin]; [|exact Hin].
    destruct pSample as [|x rest]; [contradiction|].
    left. apply u8_inj.
    pose proof (Hall x (or_introl eq_refl)) as Hx.
    rewrite E in *. pose proof (u8_range x). change (u8 x00) with 0%Z in *. lia. }
  repeat split; auto.
  - intros v Hv. rewrite Forall_forall in Hv. symmetry. now apply Hv.
  - intros v ->. simpl in Hmem. destruct Hmem as [E | []]. now symmetry.
Qed.

(** The theorem at the period [[3; 200; 17]], whose peak is 200. *)
Lemma maxSample_is_maximum_witness :
  In (maxSample ["003"; "200"; "017"]%byte) ["003"; "200"; "017"]%byte /\
  (forall s, In s ["003"; "200"; "017"]%byte ->
             (u8 s <= u8 (maxSample ["003"; "200"; "017"]%byte))%Z) /\
  (forall v, Forall (eq v) ["003"; "200"; "017"]%byte ->
             maxSample ["003"; "200"; "017"]%byte = v) /\
  (forall v, ["003"; "200"; "017"]%byte = [v] ->
             maxSample ["003"; "200"; "017"]%byte = v).
Proof. apply (maxSample_is_maximum ["003"; "200"; "017"]%byte). discriminate. Defined.

(** ** Exact arithmetic *)

Lemma Qltb_true (x y : Q) : Qltb x y = true -> x < y.
Proof. unfold Qltb. rewrite Qlt_alt. destruct (x ?= y); congruence. Qed.

Lemma Qltb_false (x y : Q) : Qltb x y = false -> y <= x.
Proof.
  unfold Qltb. intros E. apply Qnot_lt_le. rewrite Qlt_alt.
  destruct (x ?= y); congruence.
Qed.

Ltac by_cases_Qltb :=
  unfold inject_Z in *;
  repeat match goal with
  | |- context [Qltb ?x ?y] =>
      let E := fresh "E" in
      destruct (Qltb x y) eqn:E;
      [apply Qltb_true in E | apply Qltb_false in E]
  end.

Lemma level_nonneg (m : uint8) : 0 <= inject_Z (u8 m) / inject_Z 235.
Proof.
  pose proof (u8_range m) as [H0 _]. rewrite Zle_Qle in H0.
  apply Qle_shift_div_l; [reflexivity|]. rewrite Qmult_0_l. exact H0.
Qed.

Lemma level_mono (a b : uint8) :
  (u8 a <= u8 b)%Z -> inject_Z (u8 a) / inject_Z 235 <= inject_Z (u8 b) / inject_Z 235.
Proof.
  intros Hab. rewrite Zle_Qle in Hab.
  unfold Qdiv. apply Qmult_le_compat_r; [exact Hab | discriminate].
Qed.

Lemma volume_exact_range (m : uint8) : 0 <= volume (F:=Q) m <= 1.
Proof.
  unfold volume, Min, Pow2. cbn [fltb fmul fdiv of_int exact].
  pose proof (level_nonneg m) as Hx.
  remember (inject_Z (u8 m) / inject_Z 235) as x eqn:Ex in *; clear Ex.
  assert (0 <= x * x) by nra.
  by_cases_Qltb; lra.
Qed.

Lemma volume_exact_mono (a b : uint8) :
  (u8 a <= u8 b)%Z -> volume (F:=Q) a <= volume (F:=Q) b.
Proof.
  intros Hab.
  unfold volume, Min, Pow2. cbn [fltb fmul fdiv of_int exact].
  pose proof (level_nonneg a) as Ha. pose proof (level_mono a b Hab) as Hm.
  remember (inject_Z (u8 a) / inject_Z 235) as x eqn:Ex in *; clear Ex.
  remember (inject_Z (u8 b) / inject_Z 235) as y eqn:Ey in *; clear Ey.
  assert (x * x <= y * y) by nra.
  by_cases_Qltb; lra.
Qed.

Lemma volume_exact_clip (m : uint8) :
  (235 <= u8 m)%Z -> volume (F:=Q) m = 1.
Proof.
  intros Hm.
  unfold volume, Min, Pow2. cbn [fltb fmul fdiv of_int exact].
  assert (1 <= inject_Z (u8 m) / inject_Z 235) as Hx.
  { rewrite Zle_Qle in Hm. apply Qle_shift_div_l; [reflexivity|].
    rewrite Qmult_1_l. exact Hm. }
  remember (inject_Z (u8 m) / inject_Z 235) as x eqn:Ex in *; clear Ex.
  assert (1 <= x * x) by nra.
  by_cases_Qltb; [lra | reflexivity].
Qed.

Lemma smooth_exact_range (prev raw : Q) :
  0 <= prev <= 1 -> 0 <= raw <= 1 ->
  0 <= volumeDisplayed prev raw <= 1.
Proof.
  intros Hp Hr. unfold volumeDisplayed. cbn [fltb fadd fsub lit exact].
  by_cases_Qltb; lra.
Qed.

Lemma run_exact_range (periods : list (list uint8)) :
  forall prev : Q, 0 <= prev <= 1 -> 0 <= fold_left Data periods prev <= 1.
Proof.
  induction periods as [|p rest IH]; intros prev Hp; simpl; [exact Hp|].
  apply IH. apply smooth_exact_range; [exact Hp | apply volume_exact_range].
Qed.

Lemma volume_binary64_range (m : uint8) : in_unit64 (volume m) = true.
Proof. revert m. apply byte_all_spec. vm_compute. reflexivity. Qed.

Lemma volume_binary64_clip (m : uint8) :
  (235 <= u8 m)%Z -> volume (F:=float) m = 1%float.
Proof.
  destruct m; intros Hm;
    solve [ vm_compute in Hm; exfalso; apply Hm; reflexivity
          | vm_compute; reflexivity ].
Qed.

Lemma volume_binary64_mono (a b : uint8) :
  (u8 a <= u8 b)%Z -> PrimFloat.leb (volume a) (volume b) = true.
Proof.
  intros Hab. apply Z.leb_le in Hab. revert Hab.
  apply (implb_true_iff (u8 a <=? u8 b)%Z).
  apply (byte_pairs_spec (volume (F:=float))
           (fun a va b vb => implb (u8 a <=? u8 b)%Z (PrimFloat.leb va vb))).
  vm_compute. reflexivity.
Qed.

(** ** The values reached in binary64 *)

Section Reached.
Import Reach.

Lemma step_eq : lit (F:=float) 5 100 = step.
Proof. vm_compute. reflexivity. Qed.

Lemma throttle_eq (prev raw : float) :
  volumeDisplayed prev raw = throttle step prev raw.
Proof. reflexivity. Qed.

Lemma wait_eq (n : nat) : forall prev raw : float,
  hold n prev raw = wait step n prev raw.
Proof. induction n as [|n IH]; intros prev raw; simpl; [reflexivity | apply IH]. Qed.

Lemma volume_in_raws (m : uint8) : In (volume m) raws.
Proof.
  replace raws with (map (volume (F:=float)) bytes) by (vm_compute; reflexivity).
  apply in_map, In_bytes.
Qed.

Lemma everywhere_spec (p : float -> bool) :
  everywhere p = true -> forall x, reached x = true -> p x = true.
Proof.
  unfold everywhere, reached, mem. intros Hall x Hx.
  rewrite forallb_forall in Hall.
  destruct (PositiveMap.find (key x) reach) as [y|] eqn:Hfind; [|discriminate].
  apply FloatAxioms.Leibniz.eqb_spec in Hx. subst y.
  exact (Hall _ (PositiveMap.elements_correct reach (key x) Hfind)).
Qed.

Lemma raws_reached (r : float) : In r raws -> reached r = true.
Proof.
  revert r. apply forallb_forall. vm_compute. reflexivity.
Qed.

Lemma rise_reached (s : float) :
  reached s = true -> rises s = true -> reached (PrimFloat.add s step) = true.
Proof.
  intros Hs. apply implb_true_iff. revert s Hs.
  apply everywhere_spec. vm_compute. reflexivity.
Qed.

Lemma fall_reached (s : float) :
  reached s = true -> falls s = true -> reached (PrimFloat.sub s step) = true.
Proof.
  intros Hs. apply implb_true_iff. revert s Hs.
  apply everywhere_spec. vm_compute. reflexivity.
Qed.

(** The table is closed under the throttle. *)
Lemma throttle_reached (s r : float) :
  reached s = true -> In r raws -> reached (volumeDisplayed s r) = true.
Proof.
  intros Hs Hr. rewrite throttle_eq. unfold throttle.
  destruct (PrimFloat.ltb s r) eqn:Eup.
  - destruct (PrimFloat.ltb step (PrimFloat.sub r s)) eqn:Egap.
    + apply rise_reached; [exact Hs|].
      apply existsb_exists. exists r. now rewrite Eup, Egap.
    + now apply raws_reached.
  - destruct (PrimFloat.ltb step (PrimFloat.sub s r)) eqn:Egap.
    + apply fall_reached; [exact Hs|].
      apply existsb_exists. exists r. now rewrite Eup, Egap.
    + now apply raws_reached.
Qed.

Lemma Data_reached (periods : list (list uint8)) :
  forall s : float, reached s = true -> reached (fold_left Data periods s) = true.
Proof.
  induction periods as [|p rest IH]; intros s Hs; simpl; [exact Hs|].
  apply IH. unfold Data. apply throttle_reached; [exact Hs | apply volume_in_raws].
Qed.

(** Whatever the periods, [prevVolumeDisplayed] is a value of the table. *)
Lemma run_reached (periods : list (list uint8)) :
  reached (run (F:=float) periods) = true.
Proof. apply Data_reached. vm_compute. reflexivity. Qed.

(** A property checked on the table and on every volume holds of every
    state the callback reaches and every peak. *)
Lemma reached_pairs (p : float -> float -> bool) :
  everywhere (fun s => forallb (p s) raws) = true ->
  forall (periods : list (list uint8)) (m : uint8),
    p (run periods) (volume m) = true.
Proof.
  intros Hall periods m.
  pose proof (everywhere_spec _ Hall _ (run_reached periods)) as Hs.
  cbv beta in Hs. rewrite forallb_forall in Hs. apply Hs, volume_in_raws.
Qed.

Lemma run_hold {F : Type} `{Float64 F} (periods : list (list uint8))
    (pSample : list uint8) (n : nat) :
  run (periods ++ repeat pSample n)
  = hold n (run periods) (volume (maxSample pSample)).
Proof.
  unfold run. rewrite fold_left_app.
  generalize (fold_left Data periods (of_int 0)). 
  induction n as [|n IH]; intros s; simpl; [reflexivity | apply IH].
Qed.
End Reached.

(** ** The scaler and the invariant of the displayed volume *)

(** C1: the volume computed by the scaler lies in [[0,1]] for every peak in
    [[0,255]] (every [uint8]), in exact arithmetic and in binary64; the
    throttle maps a previous value and a volume of [[0,1]] into [[0,1]]; so
    [prevVolumeDisplayed], which starts at 0, is in [[0,1]] after the
    callbacks of any sequence of periods, in exact arithmetic and in
    binary64, and so is the volume of any period. *)
Theorem volumes_in_unit_interval :
  (forall m : uint8,
      0 <= volume (F:=Q) m <= 1 /\ in_unit64 (volume m) = true) /\
  (forall prev raw : Q,
      0 <= prev <= 1 -> 0 <= raw <= 1 -> 0 <= volumeDisplayed prev raw <= 1) /\
  (forall periods : list (list uint8),
      0 <= run (F:=Q) periods <= 1 /\ in_unit64 (run periods) = true) /\
  (forall (periods : list (list uint8)) (pSample : list uint8),
      0 <= volume (F:=Q) (maxSample pSample) <= 1 /\
      0 <= run (F:=Q) (periods ++ [pSample]) <= 1 /\
      in_unit64 (volume (maxSample pSample)) = true /\
      in_unit64 (run (periods ++ [pSample])) = true).
Proof.
  assert (forall periods, 0 <= run (F:=Q) periods <= 1) as Hexact.
  { intros periods. apply run_exact_range. split; vm_compute; discriminate. }
  assert (forall periods, in_unit64 (run periods) = true) as Hfloat.
  { intros periods. apply (everywhere_spec in_unit64).
    - vm_compute. reflexivity.
    - apply run_reached. }
  split; [|split; [|split]].
  - intros m. split; [apply volume_exact_range | apply volume_binary64_range].
  - apply smooth_exact_range.
  - intros periods. split; [apply Hexact | apply Hfloat].
  - intros periods pSample.
    split; [apply volume_exact_range|].
    split; [apply Hexact|].
    split; [apply volume_binary64_range | apply Hfloat].
Qed.

(** C4: a peak at or above 235 is scaled to exactly 1, and the peak 0 to
    exactly 0, in exact arithmetic and in binary64. *)
Theorem volume_clip_and_silence (m : uint8) (Hclip : (235 <= u8 m)%Z) :
  volume (F:=Q) m = 1 /\ volume (F:=float) m = 1%float /\
  volume (F:=Q) x00 == 0 /\ volume (F:=float) x00 = 0%float.
Proof.
  repeat split.
  - now apply volume_exact_clip.
  - now apply volume_binary64_clip.
Qed.

(** The theorem at the peak 240. *)
Lemma volume_clip_and_silence_witness :
  volume (F:=Q) xf0 = 1 /\ volume (F:=float) xf0 = 1%float /\
  volume (F:=Q) x00 == 0 /\ volume (F:=float) x00 = 0%float.
Proof. apply (volume_clip_and_silence xf0). vm_compute. discriminate. Defined.

(** C7: the scaler is monotone: a peak no greater than another gets a volume
    no greater, in exact arithmetic and in binary64. *)
Theorem volume_monotone (a b : uint8) (Hab : (u8 a <= u8 b)%Z) :
  volume (F:=Q) a <= volume (F:=Q) b /\
  PrimFloat.leb (volume a) (volume b) = true.
Proof.
  split; [now apply volume_exact_mono | now apply volume_binary64_mono].
Qed.

(** The theorem at the peaks 100 and 200. *)
Lemma volume_monotone_witness :
  volume (F:=Q) "100"%byte <= volume (F:=Q) "200"%byte /\
  PrimFloat.leb (volume "100"%byte) (volume "200"%byte) = true.
Proof. apply (volume_monotone "100"%byte "200"%byte). vm_compute. discriminate. Defined.

(** C10: on the empty buffer the loop leaves [maxSample] at 0 and the
    volume is 0, in exact arithmetic and in binary64; the callback then
    throttles towards 0 like for any other period.  [Data] is a total
    function: no buffer makes it fail. *)
Theorem empty_period :
  maxSample [] = x00 /\
  volume (F:=Q) (maxSample []) == 0 /\
  volume (F:=float) (maxSample []) = 0%float /\
  (forall prev : Q, Data prev [] == volumeDisplayed prev 0) /\
  (forall prev : float, Data prev [] = volumeDisplayed prev 0%float).
Proof.
  repeat split.
  intros prev. unfold Data, volumeDisplayed. cbn [fltb fadd fsub lit exact].
  change (volume (maxSample [])) with (0 # 55225).
  by_cases_Qltb; lra.
Qed.

(** ** The filler segment *)

Lemma shift_floor (z e : Z) :
  inject_Z (Z.shiftl z e) <= inject_Z z * Qpower 2 e /\
  inject_Z z * Qpower 2 e < inject_Z (Z.shiftl z e + 1).
Proof.
  destruct (Z.le_gt_cases 0 e) as [He | He].
  - rewrite Z.shiftl_mul_pow2 by exact He.
    assert (inject_Z z * Qpower 2 e == inject_Z (z * 2 ^ e)) as ->.
    { rewrite inject_Z_mult. change 2 with (inject_Z 2) at 1.
      now rewrite <- Zpower_Qpower. }
    rewrite <- Zle_Qle, <- Zlt_Qlt. lia.
  - rewrite Z.shiftl_div_pow2 by lia.
    assert (inject_Z z * Qpower 2 e == inject_Z z / inject_Z (2 ^ (- e))) as ->.
    { unfold Qdiv. apply Qmult_comp; [reflexivity|].
      rewrite Zpower_Qpower by lia.
      replace e with (- - e)%Z at 1 by lia.
      now rewrite Qpower_opp. }
    rewrite Zdiv_Qdiv. split; [apply Qfloor_le | apply Qlt_floor].
Qed.

(** [B64.floor] is the floor of the number the float stands for. *)
Lemma floor_spec (x : float) :
  B64.finite x = true ->
  inject_Z (B64.floor x) <= B64.to_Q x /\
  B64.to_Q x < inject_Z (B64.floor x + 1).
Proof.
  unfold B64.finite, B64.floor, B64.to_Q.
  destruct (Prim2SF x); try discriminate; intros _.
  - split; [apply Qle_refl | reflexivity].
  - apply shift_floor.
Qed.

(** The bar length of the source is not the specification's.  Five
    periods that clip take the displayed volume to 0.25; with a bar of
    height 5 the product is 3.75, the source resizes the filler to 3 (in
    binary64 and in exact arithmetic), and the integer nearest to 3.75, the
    specification's length, is 4. *)
Lemma fillerLength_not_rounded :
  run (F:=float) (repeat [xff] 5) = 0.25%float /\
  fillerLength 0.25%float 5 = 3%Z /\
  fillerLength (25 # 100) 5 = 3%Z /\
  spec_bar_length (25 # 100) 5 = 4%Z /\
  ~ nearest (fillerLength (25 # 100) 5) ((1 - (25 # 100)) * inject_Z 5) /\
  fillerLength (25 # 100) 5 <> spec_bar_length (25 # 100) 5.
Proof.
  repeat split; try (vm_compute; congruence).
Qed.

(** ** Rounding to binary64 *)

Lemma digits2_bounds (m : positive) :
  (2 ^ (Zpos (digits2_pos m) - 1) <= Zpos m < 2 ^ Zpos (digits2_pos m))%Z.
Proof.
  induction m as [m IH | m IH |]; simpl digits2_pos.
  - rewrite Pos2Z.inj_succ.
    replace (Z.succ (Zpos (digits2_pos m)) - 1)%Z
      with (Z.succ (Zpos (digits2_pos m) - 1))%Z by lia.
    rewrite !Z.pow_succ_r by lia. lia.
  - rewrite Pos2Z.inj_succ.
    replace (Z.succ (Zpos (digits2_pos m)) - 1)%Z
      with (Z.succ (Zpos (digits2_pos m) - 1))%Z by lia.
    rewrite !Z.pow_succ_r by lia. lia.
  - simpl. lia.
Qed.

Lemma digits2_unique (m : positive) (k : Z) :
  (2 ^ (k - 1) <= Zpos m < 2 ^ k)%Z -> Zpos (digits2_pos m) = k.
Proof.
  intros [Hlo Hhi]. pose proof (digits2_bounds m) as [Dlo Dhi].
  assert (0 < k)%Z as Hk.
  { destruct (Z.lt_trichotomy k 0) as [H | [H | H]]; [| |exact H].
    - rewrite Z.pow_neg_r in Hhi by exact H. lia.
    - subst k. simpl in Hhi. lia. }
  destruct (Z.lt_trichotomy (Zpos (digits2_pos m)) k) as [H | [H | H]];
    [|exact H|].
  - exfalso.
    assert (2 ^ Zpos (digits2_pos m) <= 2 ^ (k - 1))%Z
      by (apply Z.pow_le_mono_r; lia).
    lia.
  - exfalso.
    assert (2 ^ k <= 2 ^ (Zpos (digits2_pos m) - 1))%Z
      by (apply Z.pow_le_mono_r; lia).
    lia.
Qed.

Lemma shr_1_m (mrs : shr_record) :
  (0 <= shr_m mrs)%Z -> shr_m (shr_1 mrs) = (shr_m mrs / 2)%Z.
Proof.
  destruct mrs as [m r s]. simpl. intros Hm.
  destruct m as [|p|p]; [reflexivity| |lia].
  destruct p as [p|p|]; simpl.
  - rewrite Pos2Z.inj_xI. apply Z.div_unique with 1%Z; lia.
  - rewrite Pos2Z.inj_xO. apply Z.div_unique with 0%Z; lia.
  - reflexivity.
Qed.

Lemma iter_shr_1_m (p : positive) :
  forall mrs : shr_record,
    (0 <= shr_m mrs)%Z ->
    shr_m (iter_pos shr_1 p mrs) = (shr_m mrs / 2 ^ Zpos p)%Z.
Proof.
  induction p as [p IH | p IH |]; intros mrs Hm; simpl iter_pos.
  - assert (0 <= shr_m (shr_1 mrs))%Z as H1
      by (rewrite shr_1_m by exact Hm; apply Z.div_pos; lia).
    assert (0 <= shr_m (iter_pos shr_1 p (shr_1 mrs)))%Z as H2
      by (rewrite IH by exact H1; apply Z.div_pos; [exact H1|]; lia).
    rewrite IH by exact H2. rewrite IH by exact H1. rewrite shr_1_m by exact Hm.
    rewrite !Z.div_div by lia. f_equal.
    rewrite <- Z.pow_add_r by lia.
    replace (Zpos p~1) with (1 + (Zpos p + Zpos p))%Z by lia.
    rewrite (Z.pow_add_r 2 1) by lia. reflexivity.
  - assert (0 <= shr_m (iter_pos shr_1 p mrs))%Z as H1
      by (rewrite IH by exact Hm; apply Z.div_pos; [exact Hm|]; lia).
    rewrite IH by exact H1. rewrite IH by exact Hm.
    rewrite Z.div_div by lia. f_equal.
    rewrite <- Z.pow_add_r by lia. f_equal. lia.
  - rewrite shr_1_m by exact Hm. reflexivity.
Qed.

Lemma round_nearest_even_near (m : Z) (l : location) :
  (m <= round_nearest_even m l <= m + 1)%Z.
Proof.
  destruct l as [|[| |]]; simpl; try lia.
  destruct (Z.even m); lia.
Qed.

Lemma fexp_normal (x : Z) :
  (-1021 <= x)%Z -> fexp prec emax x = (x - 53)%Z.
Proof.
  intros Hx. unfold fexp, emin, prec, emax. lia.
Qed.

Lemma shr_fexp_keep (m : positive) (e : Z) :
  (-1021 <= Zpos (digits2_pos m) + e)%Z -> (Zpos (digits2_pos m) <= 53)%Z ->
  shr_fexp prec emax (Zpos m) e loc_Exact
  = ({| shr_m := Zpos m; shr_r := false; shr_s := false |}, e).
Proof.
  intros Hlo Hd. unfold shr_fexp. simpl Zdigits2.
  rewrite (fexp_normal _ Hlo). unfold shr.
  destruct (Zpos (digits2_pos m) + e - 53 - e)%Z eqn:Es; try reflexivity.
  exfalso. pose proof (Pos2Z.is_pos p). lia.
Qed.

Lemma shr_fexp_shift (m : positive) (e : Z) (p : positive) :
  (-1021 <= Zpos (digits2_pos m) + e)%Z ->
  (Zpos (digits2_pos m) - 53 = Zpos p)%Z ->
  shr_fexp prec emax (Zpos m) e loc_Exact
  = (iter_pos shr_1 p {| shr_m := Zpos m; shr_r := false; shr_s := false |},
     (e + Zpos p)%Z).
Proof.
  intros Hlo Hd. unfold shr_fexp. simpl Zdigits2.
  rewrite (fexp_normal _ Hlo). unfold shr.
  replace (Zpos (digits2_pos m) + e - 53 - e)%Z with (Zpos p) by lia.
  reflexivity.
Qed.

(** A product or an integer that fits the mantissa is not rounded. *)
Lemma round_aux_exact (sx : bool) (M : positive) (E : Z) :
  (-1021 <= Zpos (digits2_pos M) + E)%Z -> (Zpos (digits2_pos M) <= 53)%Z ->
  (E <= 971)%Z ->
  binary_round_aux prec emax sx (Zpos M) E loc_Exact = S754_finite sx M E.
Proof.
  intros Hlo Hd HE. unfold binary_round_aux.
  rewrite (shr_fexp_keep M E Hlo Hd). cbv beta iota zeta.
  cbn [shr_m loc_of_shr_record round_nearest_even].
  rewrite (shr_fexp_keep M E Hlo Hd). cbv beta iota zeta. cbn [shr_m].
  change (emax - prec)%Z with 971%Z.
  destruct (Z.leb_spec E 971); [reflexivity | lia].
Qed.

(** A longer one is cut to 53 bits, downwards or upwards. *)
Lemma round_aux_round (sx : bool) (M : positive) (E : Z) :
  (53 < Zpos (digits2_pos M))%Z ->
  (-1021 <= Zpos (digits2_pos M) + E <= 1023)%Z ->
  exists (m : positive) (e : Z),
    binary_round_aux prec emax sx (Zpos M) E loc_Exact = S754_finite sx m e /\
    (Zpos (digits2_pos M) + E - 53 <= e)%Z /\
    (Zpos M / 2 ^ (Zpos (digits2_pos M) - 53)
     <= Zpos m * 2 ^ (e - (Zpos (digits2_pos M) + E - 53))
     <= Zpos M / 2 ^ (Zpos (digits2_pos M) - 53) + 1)%Z.
Proof.
  intros Hd [Hlo Hhi].
  set (d := Zpos (digits2_pos M)) in *.
  assert (exists p, d - 53 = Zpos p)%Z as [p Hp]
    by (destruct (d - 53)%Z as [|p|p] eqn:Es; try lia; now exists p).
  unfold binary_round_aux.
  rewrite (shr_fexp_shift M E p Hlo Hp).
  set (mrs := iter_pos shr_1 p
                {| shr_m := Zpos M; shr_r := false; shr_s := false |}).
  assert (shr_m mrs = Zpos M / 2 ^ (d - 53))%Z as Hm1
    by (unfold mrs; rewrite iter_shr_1_m, Hp; simpl shr_m; [reflexivity | lia]).
  pose proof (digits2_bounds M) as [Dlo Dhi]. fold d in Dlo, Dhi.
  assert (2 ^ 52 <= shr_m mrs < 2 ^ 53)%Z as [M1lo M1hi].
  { rewrite Hm1. split.
    - apply Z.div_le_lower_bound; [lia|].
      rewrite <- Z.pow_add_r by lia.
      replace (d - 53 + 52)%Z with (d - 1)%Z by lia. exact Dlo.
    - apply Z.div_lt_upper_bound; [lia|].
      rewrite <- Z.pow_add_r by lia.
      replace (d - 53 + 53)%Z with d by lia. exact Dhi. }
  pose proof (round_nearest_even_near (shr_m mrs) (loc_of_shr_record mrs))
    as [M2lo M2hi].
  rewrite <- Hm1.
  destruct (round_nearest_even (shr_m mrs) (loc_of_shr_record mrs))
    as [|q|q] eqn:Eq; try lia.
  replace (E + Zpos p)%Z with (d + E - 53)%Z by lia.
  set (e1 := (d + E - 53)%Z) in *.
  destruct (Z.lt_ge_cases (Zpos q) (2 ^ 53)) as [Hsmall | Hfull].
  - assert (Zpos (digits2_pos q) = 53)%Z as Hq
      by (apply digits2_unique; change (53 - 1)%Z with 52%Z; lia).
    rewrite shr_fexp_keep by (rewrite Hq; unfold e1; lia).
    cbv beta iota zeta. cbn [shr_m].
    exists q, e1. split.
    + change (emax - prec)%Z with 971%Z.
      destruct (Z.leb_spec e1 971); [reflexivity | unfold e1 in *; lia].
    + split; [lia|]. rewrite Z.sub_diag, Z.pow_0_r, Z.mul_1_r. lia.
  - assert (Zpos q = 2 ^ 53)%Z as Hq2 by lia.
    assert (Zpos (digits2_pos q) = 54)%Z as Hq
      by (apply digits2_unique; rewrite Hq2; change (54 - 1)%Z with 53%Z;
          split; [lia|]; apply Z.pow_lt_mono_r; lia).
    rewrite (shr_fexp_shift q e1 1)
      by (rewrite Hq; unfold e1; lia).
    cbv beta iota zeta. cbn [iter_pos].
    assert (shr_m (shr_1 {| shr_m := Zpos q; shr_r := false; shr_s := false |})
            = 2 ^ 52)%Z as Hhalf.
    { rewrite shr_1_m by (cbn [shr_m]; lia). cbn [shr_m]. rewrite Hq2.
      reflexivity. }
    destruct (shr_m (shr_1 {| shr_m := Zpos q; shr_r := false; shr_s := false |}))
      as [|q'|q'] eqn:Eq'; try discriminate.
    exists q', (e1 + 1)%Z. split.
    + change (emax - prec)%Z with 971%Z.
      destruct (Z.leb_spec (e1 + 1) 971); [reflexivity | unfold e1 in *; lia].
    + split; [lia|].
      replace (e1 + 1 - e1)%Z with 1%Z by lia.
      rewrite Hhalf.
      change (2 ^ 52 * 2 ^ 1)%Z with (2 ^ 53)%Z. lia.
Qed.

Lemma iter_xO (q d : positive) :
  Zpos (Pos.iter xO q d) = (Zpos q * 2 ^ Zpos d)%Z.
Proof.
  induction d as [|d IH] using Pos.peano_ind.
  - simpl. lia.
  - rewrite Pos.iter_succ, Pos2Z.inj_xO, IH, Pos2Z.inj_succ.
    rewrite Z.pow_succ_r by lia. lia.
Qed.

(** [float64(n)] is [n] for a positive integer below [2^53]: a mantissa of
    53 bits and an exponent that is not positive. *)
Lemma of_Z_exact (n : Z) :
  (0 < n < 2 ^ 53)%Z ->
  exists (mn : positive) (en : Z),
    Prim2SF (B64.of_Z n) = S754_finite false mn en /\
    Zpos (digits2_pos mn) = 53%Z /\
    (-52 <= en <= 0)%Z /\
    Zpos mn = (n * 2 ^ (- en))%Z.
Proof.
  intros [Hpos Hlt]. unfold B64.of_Z.
  destruct (Z.ltb_spec n 0) as [|_]; [lia|].
  rewrite of_uint63_spec, Uint63.of_Z_spec.
  rewrite Z.mod_small
    by (split; [lia|]; apply Z.lt_trans with (2 ^ 53)%Z; [exact Hlt | reflexivity]).
  destruct n as [|q|q]; try lia.
  unfold binary_normalize, binary_round.
  pose proof (digits2_bounds q) as [Dlo Dhi].
  set (dq := Zpos (digits2_pos q)) in *.
  assert (1 <= dq <= 53)%Z as [Hd1 Hd53].
  { split; [unfold dq; lia|].
    destruct (Z.le_gt_cases dq 53) as [H|H]; [exact H|]. exfalso.
    assert (2 ^ 53 <= 2 ^ (dq - 1))%Z by (apply Z.pow_le_mono_r; lia). lia. }
  rewrite fexp_normal by lia. unfold shl_align.
  destruct (dq + 0 - 53 - 0)%Z as [|d'|d'] eqn:Es; try lia.
  - assert (dq = 53)%Z as Hdq by lia.
    rewrite round_aux_exact by (fold dq; lia).
    exists q, 0%Z. repeat split; try lia; try exact Hdq.
  - assert (Zpos d' = 53 - dq)%Z as Hd' by lia.
    assert (Zpos (digits2_pos (Pos.iter xO q d')) = 53)%Z as Hdigits.
    { apply digits2_unique. rewrite iter_xO, Hd'.
      change (53 - 1)%Z with 52%Z. split.
      - replace 52%Z with ((dq - 1) + (53 - dq))%Z by lia.
        rewrite Z.pow_add_r by lia.
        apply Z.mul_le_mono_nonneg_r; [lia | exact Dlo].
      - replace 53%Z with (dq + (53 - dq))%Z at 2 by lia.
        rewrite Z.pow_add_r by lia.
        apply Z.mul_lt_mono_pos_r; [lia | exact Dhi]. }
    rewrite round_aux_exact by (rewrite ?Hdigits; lia).
    exists (Pos.iter xO q d'), (dq + 0 - 53)%Z.
    split; [reflexivity|]. split; [exact Hdigits|]. split; [lia|].
    rewrite iter_xO, Hd'. f_equal. f_equal. lia.
Qed.

(** The product of two positive normal numbers is the exact product cut to
    53 bits, with a relative error of at most [2^-52]. *)
Lemma mul_round (mu mn : positive) (eu en : Z) :
  Zpos (digits2_pos mu) = 53%Z -> Zpos (digits2_pos mn) = 53%Z ->
  (-900 <= eu + en <= 900)%Z ->
  exists (m : positive) (e : Z),
    SFmul prec emax (S754_finite false mu eu) (S754_finite false mn en)
    = S754_finite false m e /\
    (eu + en <= e)%Z /\
    (2 ^ 52 * Z.abs (Zpos m * 2 ^ (e - (eu + en)) - Zpos mu * Zpos mn)
     <= Zpos mu * Zpos mn)%Z.
Proof.
  intros Hu Hn HE. unfold SFmul. cbn [xorb].
  pose proof (digits2_bounds mu) as [Ulo Uhi]. rewrite Hu in Ulo, Uhi.
  pose proof (digits2_bounds mn) as [Nlo Nhi]. rewrite Hn in Nlo, Nhi.
  change (53 - 1)%Z with 52%Z in *.
  pose proof (digits2_bounds (mu * mn)) as [Dlo Dhi].
  rewrite Pos2Z.inj_mul in Dlo, Dhi.
  set (d := Zpos (digits2_pos (mu * mn))) in *.
  assert (2 ^ 104 <= Zpos mu * Zpos mn < 2 ^ 106)%Z as [Mlo Mhi].
  { change (2 ^ 104)%Z with (2 ^ 52 * 2 ^ 52)%Z.
    change (2 ^ 106)%Z with (2 ^ 53 * 2 ^ 53)%Z. nia. }
  assert (105 <= d <= 106)%Z as [Hd1 Hd2].
  { split.
    - destruct (Z.le_gt_cases 105 d) as [H|H]; [exact H|]. exfalso.
      assert (2 ^ d <= 2 ^ 104)%Z by (apply Z.pow_le_mono_r; lia). lia.
    - destruct (Z.le_gt_cases d 106) as [H|H]; [exact H|]. exfalso.
      assert (2 ^ 106 <= 2 ^ (d - 1))%Z by (apply Z.pow_le_mono_r; lia). lia. }
  destruct (round_aux_round false (mu * mn) (eu + en)) as (m & e & Hr & He & Hm);
    [fold d; lia | fold d; lia |].
  fold d in He, Hm. rewrite Pos2Z.inj_mul in Hm.
  exists m, e. split; [exact Hr|]. split; [lia|].
  set (M := (Zpos mu * Zpos mn)%Z) in *.
  set (k := (d - 53)%Z) in *.
  assert (0 < 2 ^ k)%Z as Hk by (apply Z.pow_pos_nonneg; unfold k; lia).
  pose proof (Z.mul_div_le M (2 ^ k) Hk) as Hdown.
  pose proof (Z.mul_succ_div_gt M (2 ^ k) Hk) as Hup.
  replace (e - (eu + en))%Z with ((e - (d + (eu + en) - 53)) + k)%Z
    by (unfold k; lia).
  rewrite Z.pow_add_r by (unfold k; lia).
  set (m2 := (Zpos m * 2 ^ (e - (d + (eu + en) - 53)))%Z) in *.
  rewrite Z.mul_assoc. fold m2.
  assert (2 ^ 52 * 2 ^ k <= M)%Z as Hbig.
  { rewrite <- Z.pow_add_r by (unfold k; lia).
    replace (52 + k)%Z with (d - 1)%Z by (unfold k; lia). exact Dlo. }
  set (m1 := (M / 2 ^ k)%Z) in *.
  assert (Z.abs (m2 * 2 ^ k - M) <= 2 ^ k)%Z as Hnear by nia.
  nia.
Qed.

Lemma two_nonzero : ~ (2 : Q) == 0.
Proof. discriminate. Qed.

Lemma scale_mantissa (m e E : Z) :
  (E <= e)%Z ->
  inject_Z m * Qpower 2 e == inject_Z (m * 2 ^ (e - E)) * Qpower 2 E.
Proof.
  intros H. rewrite inject_Z_mult, Zpower_Qpower by lia.
  rewrite <- Qmult_assoc, <- Qpower_plus by exact two_nonzero.
  replace (e - E + E)%Z with e by lia. reflexivity.
Qed.

Lemma integer_value (n : Z) (mn : positive) (en : Z) :
  (en <= 0)%Z -> Zpos mn = (n * 2 ^ (- en))%Z ->
  inject_Z (Zpos mn) * Qpower 2 en == inject_Z n.
Proof.
  intros Hen ->. rewrite inject_Z_mult, Zpower_Qpower by lia.
  rewrite <- Qmult_assoc, <- Qpower_plus by exact two_nonzero.
  replace (- en + en)%Z with 0%Z by lia. simpl. ring.
Qed.

(** The bound of [mul_round], on the values. *)
Lemma near_product (N M : Z) (t : Q) :
  0 < t ->
  (2 ^ 52 * Z.abs (N - M) <= M)%Z ->
  Qabs (inject_Z N * t - inject_Z M * t) <= inject_Z M * t * (1 # 2 ^ 52).
Proof.
  intros Ht H.
  assert (2 ^ 52 * (N - M) <= M)%Z as H1 by lia.
  assert (2 ^ 52 * (M - N) <= M)%Z as H2 by lia.
  rewrite Zle_Qle in H1, H2.
  rewrite inject_Z_mult in H1, H2.
  unfold Z.sub in H1, H2. rewrite inject_Z_plus, inject_Z_opp in H1, H2.
  change (inject_Z (2 ^ 52)) with (4503599627370496 # 1) in H1, H2.
  change (1 # 2 ^ 52) with (1 # 4503599627370496).
  remember (inject_Z N) as a eqn:Ea in *. clear Ea.
  remember (inject_Z M) as b eqn:Eb in *. clear Eb.
  apply Qabs_Qle_condition. split.
  - assert (0 <= (b - (4503599627370496 # 1) * (b + - a)) * t) as H3
      by (apply Qmult_le_0_compat; lra).
    lra.
  - assert (0 <= (b - (4503599627370496 # 1) * (a + - b)) * t) as H3
      by (apply Qmult_le_0_compat; lra).
    lra.
Qed.

Lemma floor_unique (q : Q) (z : Z) :
  inject_Z z <= q -> q < inject_Z (z + 1) -> Qfloor q = z.
Proof.
  intros Hlo Hhi.
  assert (z <= Qfloor q)%Z as H1
    by (rewrite <- (Qfloor_Z z); now apply Qfloor_resp_le).
  assert (Qfloor q < z + 1)%Z as H2.
  { rewrite Zlt_Qlt. apply Qle_lt_trans with q; [apply Qfloor_le | exact Hhi]. }
  lia.
Qed.

Lemma one_is_one : B64.of_Z 1 = 1%float.
Proof. reflexivity. Qed.

Lemma zero_is_zero : Prim2SF (B64.of_Z 0) = S754_zero false.
Proof. reflexivity. Qed.

(** The float product of line 88 at a displayed value of the table and a
    bar of positive length: a finite number within [n * 2^-51] of the exact
    product. *)
Lemma product_value (v : float) (n : Z) :
  complement_ok v = true -> (0 < n < 2 ^ 31)%Z ->
  B64.finite (PrimFloat.mul (PrimFloat.sub 1 v) (B64.of_Z n)) = true /\
  0 <= B64.to_Q (PrimFloat.mul (PrimFloat.sub 1 v) (B64.of_Z n)) /\
  Qabs (B64.to_Q (PrimFloat.mul (PrimFloat.sub 1 v) (B64.of_Z n))
        - (1 - B64.to_Q v) * inject_Z n)
  <= inject_Z n * (1 # 2 ^ 51).
Proof.
  intros Hv [Hpos Hlt].
  apply andb_prop in Hv. destruct Hv as [_ Hv].
  destruct (of_Z_exact n) as (mn & en & Hn & Hdn & [Hen1 Hen2] & Hmn).
  { split; [exact Hpos|]. apply Z.lt_trans with (2 ^ 31)%Z; [exact Hlt|reflexivity]. }
  assert (0 < inject_Z n) as Hnq by (rewrite Zlt_Qlt in Hpos; exact Hpos).
  unfold B64.finite.
  unfold B64.to_Q at 1 2. rewrite FloatAxioms.mul_spec, Hn.
  destruct (Prim2SF (PrimFloat.sub 1 v)) as [s| | |s mu eu] eqn:Eu;
    try discriminate.
  - apply Qeq_bool_iff in Hv. unfold SF64mul, SFmul. split; [reflexivity|].
    split; [apply Qle_refl|].
    rewrite Hv. setoid_replace (0 - (1 - 1) * inject_Z n) with 0 by ring.
    simpl. apply Qmult_le_0_compat; [lra | discriminate].
  - destruct s; [discriminate|].
    assert (B64.to_Q (PrimFloat.sub 1 v) = inject_Z (Zpos mu) * Qpower 2 eu)
      as Hu by (unfold B64.to_Q; rewrite Eu; reflexivity).
    rewrite Hu in Hv.
    repeat (apply andb_prop in Hv; destruct Hv as [Hv ?]).
    apply Pos.eqb_eq in Hv.
    match goal with H : (_ <=? _)%Z = true |- _ => apply Z.leb_le in H end.
    match goal with H : (_ <=? _)%Z = true |- _ => apply Z.leb_le in H end.
    match goal with H : Qle_bool (Qabs _) _ = true |- _ =>
      apply Qle_bool_iff in H; rename H into Herr end.
    match goal with H : Qle_bool _ 1 = true |- _ =>
      apply Qle_bool_iff in H; rename H into Hone end.
    destruct (mul_round mu mn eu en) as (m & e & Hm & He & Hnear);
      [now rewrite Hv | exact Hdn | lia |].
    unfold SF64mul. rewrite Hm. split; [reflexivity|].
    cbn [cond_Zopp] in *.
    split.
    { apply Qmult_le_0_compat; [discriminate|].
      apply Qlt_le_weak, Qpower_0_lt. reflexivity. }
    rewrite (scale_mantissa (Zpos m) e (eu + en) He).
    set (t := Qpower 2 (eu + en)).
    assert (0 < t) as Ht by (apply Qpower_0_lt; reflexivity).
    pose proof (near_product _ _ t Ht Hnear) as Hp.
    assert (inject_Z (Zpos mu * Zpos mn) * t
            == inject_Z (Zpos mu) * Qpower 2 eu * inject_Z n) as Hy.
    { unfold t. rewrite Qpower_plus by exact two_nonzero.
      rewrite inject_Z_mult.
      rewrite <- (integer_value n mn en Hen2 Hmn). ring. }
    rewrite Hy in Hp.
    remember (inject_Z (Zpos m * 2 ^ (e - (eu + en))) * t) as p eqn:Ep in *.
    clear Ep.
    remember (inject_Z (Zpos mu) * Qpower 2 eu) as u eqn:Eu' in *.
    clear Eu'.
    remember (B64.to_Q v) as x eqn:Ex in *. clear Ex.
    remember (inject_Z n) as k eqn:Ek in *. clear Ek.
    change (1 # 2 ^ 54) with (1 # 18014398509481984) in Herr.
    change (1 # 2 ^ 52) with (1 # 4503599627370496) in Hp.
    change (1 # 2 ^ 51) with (1 # 2251799813685248).
    apply Qabs_Qle_condition in Herr. destruct Herr as [E1 E2].
    apply Qabs_Qle_condition in Hp. destruct Hp as [P1 P2].
    assert (0 <= u) as Hu0.
    { destruct (Qlt_le_dec u 0) as [Hneg|]; [|assumption]. exfalso.
      assert (u * k < 0) by nra. lra. }
    apply Qabs_Qle_condition. split; nra.
Qed.

Lemma complement_reached (v : float) :
  Reach.reached v = true -> complement_ok v = true.
Proof.
  revert v. apply everywhere_spec. vm_compute. reflexivity.
Qed.

Lemma empty_bar_reached (v : float) :
  Reach.reached v = true -> fillerLength v 0 = 0%Z.
Proof.
  intros Hv. apply Z.eqb_eq. revert v Hv.
  apply everywhere_spec. vm_compute. reflexivity.
Qed.

Lemma unit_reached (v : float) :
  Reach.reached v = true -> 0 <= B64.to_Q v <= 1.
Proof.
  intros Hv. apply complement_reached in Hv. unfold complement_ok in Hv.
  apply andb_prop in Hv. destruct Hv as [Hv _].
  apply andb_prop in Hv. destruct Hv as [H0 H1].
  apply Qle_bool_iff in H0, H1. auto.
Qed.

(** The filler at a displayed value of the table: the floor of the exact
    product up to an error of at most [n * 2^-51]. *)
Lemma filler_binary64 (v : float) (n : Z) :
  Reach.reached v = true -> (0 <= n < 2 ^ 31)%Z ->
  exists d : Q,
    Qabs d <= inject_Z n * (1 # 2 ^ 51) /\
    0 <= (1 - B64.to_Q v) * inject_Z n + d /\
    fillerLength v n = Qfloor ((1 - B64.to_Q v) * inject_Z n + d).
Proof.
  intros Hv [Hn0 Hn].
  destruct (Z.eq_dec n 0) as [-> | Hpos].
  - exists 0. split; [discriminate|].
    assert ((1 - B64.to_Q v) * inject_Z 0 + 0 == 0) as E by ring.
    split; [rewrite E; apply Qle_refl|].
    rewrite E. rewrite (empty_bar_reached v Hv). reflexivity.
  - destruct (product_value v n (complement_reached v Hv)) as (Hfin & Hp0 & Herr);
      [lia|].
    exists (B64.to_Q (PrimFloat.mul (PrimFloat.sub 1 v) (B64.of_Z n))
            - (1 - B64.to_Q v) * inject_Z n).
    split; [exact Herr|].
    assert ((1 - B64.to_Q v) * inject_Z n +
            (B64.to_Q (PrimFloat.mul (PrimFloat.sub 1 v) (B64.of_Z n))
             - (1 - B64.to_Q v) * inject_Z n)
            == B64.to_Q (PrimFloat.mul (PrimFloat.sub 1 v) (B64.of_Z n)))
      as E by ring.
    split; [rewrite E; exact Hp0|].
    rewrite E.
    change (fillerLength v n)
      with (B64.floor (PrimFloat.mul (PrimFloat.sub (B64.of_Z 1) v) (B64.of_Z n))).
    rewrite one_is_one.
    destruct (floor_spec _ Hfin) as [Hlo Hhi].
    symmetry. now apply floor_unique.
Qed.

Lemma small_error (n : Z) (d : Q) :
  (0 <= n < 2 ^ 31)%Z -> Qabs d <= inject_Z n * (1 # 2 ^ 51) ->
  - (1 # 2 ^ 20) <= d <= 1 # 2 ^ 20.
Proof.
  intros [Hn0 Hn] Hd.
  assert (inject_Z n <= inject_Z (2 ^ 31)) as Hq by (rewrite <- Zle_Qle; lia).
  assert (0 <= inject_Z n) as Hq0 by (rewrite Zle_Qle in Hn0; exact Hn0).
  change (inject_Z (2 ^ 31)) with (2147483648 # 1) in Hq.
  change (1 # 2 ^ 51) with (1 # 2251799813685248) in Hd.
  change (1 # 2 ^ 20) with (1 # 1048576).
  remember (inject_Z n) as k eqn:Ek in *. clear Ek.
  apply Qabs_Qle_condition in Hd. destruct Hd as [D1 D2].
  split; lra.
Qed.

Lemma floor_near (q r : Q) :
  q - 1 <= r <= q + 1 -> (Qfloor q - 1 <= Qfloor r <= Qfloor q + 1)%Z.
Proof.
  intros [Hlo Hhi].
  pose proof (Qfloor_le q) as Q1. pose proof (Qlt_floor q) as Q2.
  pose proof (Qfloor_le r) as R1. pose proof (Qlt_floor r) as R2.
  rewrite inject_Z_plus in Q2, R2.
  change (inject_Z 1) with 1 in Q2, R2.
  assert (inject_Z (Qfloor q - 1) < inject_Z (Qfloor r + 1)) as A.
  { unfold Z.sub. rewrite !inject_Z_plus, inject_Z_opp.
    change (inject_Z 1) with 1. lra. }
  assert (inject_Z (Qfloor r) < inject_Z (Qfloor q + 1 + 1)) as B.
  { rewrite !inject_Z_plus. change (inject_Z 1) with 1. lra. }
  rewrite <- Zlt_Qlt in A, B. lia.
Qed.

(** C2, amended: the filler length is the product [(1 - v) * n] rounded
    down, and not the nearest integer.  In exact arithmetic it is the floor
    of the product, the greatest integer not above it, and lies in [[0,n]]
    for [v] in [[0,1]] and a bar length [n >= 0].  In binary64, where the
    difference and the product are rounded before the floor is taken, at
    every displayed value the callback reaches and every bar length [n] with
    [0 <= n < 2^31]: it is the floor of the exact product plus an error of
    at most [n * 2^-51] in magnitude; so it lies in [[0,n]], it differs from
    the floor of the exact product by at most 1, and it is that floor [k]
    whenever the exact product is at least [n * 2^-51] above [k] and more
    than that below [k + 1].  It does differ: three periods that clip take the displayed
    volume to 0.15000000000000002, where the filler of a bar of length 100 is
    85 and the exact product lies below 85.  At the bar length 100 the volume
    0.25 gives 75 and the volume 1.0 gives 0. *)
Theorem fillerLength_is_floor :
  (forall (v : Q) (n : Z),
      inject_Z (fillerLength v n) <= (1 - v) * inject_Z n /\
      (1 - v) * inject_Z n < inject_Z (fillerLength v n + 1)) /\
  (forall (v : Q) (n : Z),
      0 <= v <= 1 -> (0 <= n)%Z -> (0 <= fillerLength v n <= n)%Z) /\
  (forall (periods : list (list uint8)) (n : Z),
      (0 <= n < 2 ^ 31)%Z ->
      (exists d : Q,
          Qabs d <= inject_Z n * (1 # 2 ^ 51) /\
          fillerLength (run (F:=float) periods) n
          = Qfloor ((1 - B64.to_Q (run periods)) * inject_Z n + d)) /\
      (0 <= fillerLength (run (F:=float) periods) n <= n)%Z /\
      (Qfloor ((1 - B64.to_Q (run periods)) * inject_Z n) - 1
       <= fillerLength (run (F:=float) periods) n
       <= Qfloor ((1 - B64.to_Q (run periods)) * inject_Z n) + 1)%Z /\
      (forall k : Z,
          inject_Z k + inject_Z n * (1 # 2 ^ 51)
            <= (1 - B64.to_Q (run periods)) * inject_Z n ->
          (1 - B64.to_Q (run periods)) * inject_Z n
            < inject_Z (k + 1) - inject_Z n * (1 # 2 ^ 51) ->
          fillerLength (run (F:=float) periods) n = k)) /\
  run (F:=float) [[xff]; [xff]; [xff]] = 0.15000000000000002%float /\
  fillerLength 0.15000000000000002%float 100 = 85%Z /\
  Qfloor ((1 - B64.to_Q 0.15000000000000002%float) * inject_Z 100) = 84%Z /\
  fillerLength (25 # 100) 100 = 75%Z /\
  fillerLength (1 : Q) 100 = 0%Z /\
  fillerLength 0.25%float 100 = 75%Z /\
  fillerLength 1%float 100 = 0%Z.
Proof.
  split; [|split; [|split]].
  - intros v n. split; [apply Qfloor_le | apply Qlt_floor].
  - intros v n Hv Hn.
    change (fillerLength v n) with (Qfloor ((1 - v) * inject_Z n)).
    assert (0 <= (1 - v) * inject_Z n <= inject_Z n) as [Hlo Hhi].
    { rewrite Zle_Qle in Hn. remember (inject_Z n) as k eqn:Ek in *. clear Ek.
      unfold inject_Z in Hn. split; nra. }
    split.
    + rewrite <- (Qfloor_Z 0). now apply Qfloor_resp_le.
    + rewrite <- (Qfloor_Z n) at 2. now apply Qfloor_resp_le.
  - intros periods n Hn.
    pose proof (run_reached periods) as Hv.
    destruct (filler_binary64 _ n Hv Hn) as (d & Hd & Hp0 & Hr).
    destruct (unit_reached _ Hv) as [V0 V1].
    destruct (small_error n d Hn Hd) as [D1 D2].
    change (1 # 2 ^ 20) with (1 # 1048576) in D1, D2.
    assert (0 <= inject_Z n) as Hq0
      by (destruct Hn as [Hn0 _]; rewrite Zle_Qle in Hn0; exact Hn0).
    set (x := (1 - B64.to_Q (run periods)) * inject_Z n) in *.
    assert (0 <= x <= inject_Z n) as [X0 X1].
    { unfold x. remember (inject_Z n) as k eqn:Ek in *. clear Ek.
      remember (B64.to_Q (run periods)) as y eqn:Ey in *. clear Ey.
      split; nra. }
    split; [exists d; split; [exact Hd | exact Hr]|].
    rewrite Hr. split; [|split].
    + split.
      * rewrite <- (Qfloor_Z 0). now apply Qfloor_resp_le.
      * assert (Qfloor (x + d) < n + 1)%Z; [|lia].
        rewrite Zlt_Qlt. apply Qle_lt_trans with (x + d); [apply Qfloor_le|].
        rewrite inject_Z_plus. change (inject_Z 1) with 1. lra.
    + apply floor_near. split; lra.
    + intros k Hlo Hhi. apply Qabs_Qle_condition in Hd.
      apply floor_unique; lra.
  - repeat split; vm_compute; reflexivity.
Qed.

(** ** The throttle *)

(** Whatever the arithmetic, one invocation returns the volume itself, or
    the previous value moved by one step towards it. *)
Lemma volumeDisplayed_cases {F : Type} `{Float64 F} (prev raw : F) :
  (volumeDisplayed prev raw = raw) \/
  (volumeDisplayed prev raw = fadd prev (lit 5 100) /\
   fltb prev raw = true /\ fltb (lit 5 100) (fsub raw prev) = true) \/
  (volumeDisplayed prev raw = fsub prev (lit 5 100) /\
   fltb prev raw = false /\ fltb (lit 5 100) (fsub prev raw) = true).
Proof.
  unfold volumeDisplayed.
  destruct (fltb prev raw) eqn:Eup.
  - destruct (fltb (lit 5 100) (fsub raw prev)) eqn:Egap; auto.
  - destruct (fltb (lit 5 100) (fsub prev raw)) eqn:Egap; auto.
Qed.

Ltac exact_throttle :=
  unfold volumeDisplayed; cbn [fltb fadd fsub lit exact].

Lemma throttle_snap (prev raw : Q) :
  Qabs (raw - prev) <= 5 # 100 -> volumeDisplayed prev raw = raw.
Proof.
  rewrite Qabs_Qle_condition. intros [Hlo Hhi].
  exact_throttle. by_cases_Qltb; solve [reflexivity | lra].
Qed.

Lemma throttle_step_bound (prev raw : Q) :
  Qabs (volumeDisplayed prev raw - prev) <= 5 # 100.
Proof.
  rewrite Qabs_Qle_condition.
  exact_throttle. by_cases_Qltb; lra.
Qed.

(** In binary64 the throttle can move the displayed value by more than
    0.05.  After two periods that clip the displayed value is 0.1; a third
    one moves it to 0.15000000000000002, which is farther than 0.05 from 0.1:
    by the float subtraction and comparison, and as rational numbers. *)
Lemma throttle_step_exceeds :
  run (F:=float) [[xff]; [xff]] = 0.1%float /\
  volume (F:=float) xff = 1%float /\
  Data 0.1%float [xff] = 0.15000000000000002%float /\
  PrimFloat.leb (PrimFloat.abs (PrimFloat.sub (Data 0.1%float [xff]) 0.1%float))
                (lit 5 100) = false /\
  5 # 100 < B64.to_Q (Data 0.1%float [xff]) - B64.to_Q 0.1%float /\
  B64.to_Q (lit 5 100) < B64.to_Q (Data 0.1%float [xff]) - B64.to_Q 0.1%float.
Proof. repeat split. Qed.

Lemma throttle_binary64 (periods : list (list uint8)) (m : uint8) :
  between64 (run periods) (volumeDisplayed (run periods) (volume m)) (volume m)
    = true /\
  PrimFloat.leb
    (PrimFloat.abs (PrimFloat.sub (volumeDisplayed (run periods) (volume m))
                                  (run periods)))
    0.0500000000000001%float = true /\
  (PrimFloat.leb (PrimFloat.abs (PrimFloat.sub (volume m) (run periods)))
                 (lit 5 100) = true ->
   volumeDisplayed (run periods) (volume m) = volume m) /\
  volumeDisplayed (PrimFloat.opp (run periods)) (PrimFloat.opp (volume m))
    = PrimFloat.opp (volumeDisplayed (run periods) (volume m)) /\
  (run periods = volume m ->
   volumeDisplayed (run periods) (volume m) = run periods).
Proof.
  split; [|split; [|split; [|split]]].
  - apply (reached_pairs
             (fun s r => between64 s (Reach.throttle Reach.step s r) r)).
    vm_compute. reflexivity.
  - apply (reached_pairs
             (fun s r =>
                PrimFloat.leb
                  (PrimFloat.abs (PrimFloat.sub (Reach.throttle Reach.step s r) s))
                  0.0500000000000001%float)).
    vm_compute. reflexivity.
  - intros Hgap. apply FloatAxioms.Leibniz.eqb_spec. revert Hgap.
    apply implb_true_iff.
    apply (reached_pairs
             (fun s r =>
                implb (PrimFloat.leb (PrimFloat.abs (PrimFloat.sub r s)) Reach.step)
                      (PrimFloat.Leibniz.eqb (Reach.throttle Reach.step s r) r))).
    vm_compute. reflexivity.
  - apply FloatAxioms.Leibniz.eqb_spec.
    apply (reached_pairs
             (fun s r =>
                PrimFloat.Leibniz.eqb
                  (Reach.throttle Reach.step (PrimFloat.opp s) (PrimFloat.opp r))
                  (PrimFloat.opp (Reach.throttle Reach.step s r)))).
    vm_compute. reflexivity.
  - intros Heq. rewrite Heq. apply FloatAxioms.Leibniz.eqb_spec.
    generalize (volume_in_raws m). generalize (volume (F:=float) m).
    apply forallb_forall. vm_compute. reflexivity.
Qed.

(** C5, amended: one invocation of the throttle.  In exact arithmetic, for
    every previous value and volume (those of [[0,1]] among them): the
    result lies between the previous value and the volume; it differs from
    the previous value by at most 0.05; the throttle commutes with the
    reflection [x |-> c - x] that exchanges rising and falling; the result
    is the volume itself if and only if the gap is at most 0.05; and a volume
    equal to the previous value is returned unchanged.  In binary64 the
    result is the volume or the float sum or difference of the previous value
    and 0.05; and for every displayed value the callback reaches and the
    volume of every peak: the result lies between the two, the computed
    change is at most 0.0500000000000001 (0.05 and a rounding error), the
    result is the volume itself when the computed gap is at most 0.05,
    negating both arguments negates the result, and a volume equal to the
    previous value is returned unchanged. *)
Theorem throttle_step :
  (forall prev raw : Q,
      (prev <= raw -> prev <= volumeDisplayed prev raw <= raw) /\
      (raw <= prev -> raw <= volumeDisplayed prev raw <= prev) /\
      Qabs (volumeDisplayed prev raw - prev) <= 5 # 100 /\
      (forall c : Q,
          volumeDisplayed (c - prev) (c - raw) == c - volumeDisplayed prev raw) /\
      (Qabs (raw - prev) <= 5 # 100 -> volumeDisplayed prev raw = raw) /\
      (volumeDisplayed prev raw == raw -> Qabs (raw - prev) <= 5 # 100) /\
      (prev == raw ->
       volumeDisplayed prev raw = raw /\ volumeDisplayed prev raw == prev)) /\
  (forall p r : float,
      volumeDisplayed p r = r \/
      volumeDisplayed p r = PrimFloat.add p (lit 5 100) \/
      volumeDisplayed p r = PrimFloat.sub p (lit 5 100)) /\
  (forall (periods : list (list uint8)) (m : uint8),
      between64 (run periods) (volumeDisplayed (run periods) (volume m)) (volume m)
        = true /\
      PrimFloat.leb
        (PrimFloat.abs (PrimFloat.sub (volumeDisplayed (run periods) (volume m))
                                      (run periods)))
        0.0500000000000001%float = true /\
      (PrimFloat.leb (PrimFloat.abs (PrimFloat.sub (volume m) (run periods)))
                     (lit 5 100) = true ->
       volumeDisplayed (run periods) (volume m) = volume m) /\
      volumeDisplayed (PrimFloat.opp (run periods)) (PrimFloat.opp (volume m))
        = PrimFloat.opp (volumeDisplayed (run periods) (volume m)) /\
      (run periods = volume m ->
       volumeDisplayed (run periods) (volume m) = run periods)).
Proof.
  split; [|split].
  - intros prev raw.
    split; [|split; [|split; [|split; [|split; [|split]]]]].
    + intros Hle. exact_throttle. by_cases_Qltb; lra.
    + intros Hle. exact_throttle. by_cases_Qltb; lra.
    + apply throttle_step_bound.
    + intros c. exact_throttle. by_cases_Qltb; lra.
    + apply throttle_snap.
    + rewrite Qabs_Qle_condition. exact_throttle. by_cases_Qltb; lra.
    + intros Heq.
      assert (volumeDisplayed prev raw = raw) as E.
      { apply throttle_snap. rewrite Qabs_Qle_condition. lra. }
      rewrite E. split; [reflexivity | lra].
  - intros p r.
    destruct (volumeDisplayed_cases p r) as [E | [[E _] | [E _]]]; auto.
  - apply throttle_binary64.
Qed.

(** [n] invocations with the volume held cover a gap of [n] steps. *)
Lemma hold_reaches (n : nat) :
  forall prev raw : Q,
    Qabs (raw - prev) <= inject_Z (Z.of_nat n) * (5 # 100) ->
    hold n prev raw == raw.
Proof.
  induction n as [|n IH]; intros prev raw Hgap.
  - simpl hold. rewrite Qabs_Qle_condition in Hgap.
    change (inject_Z (Z.of_nat 0)) with 0 in Hgap. lra.
  - simpl hold. apply IH.
    rewrite Nat2Z.inj_succ in Hgap. unfold Z.succ in Hgap.
    rewrite inject_Z_plus in Hgap.
    assert (0 <= inject_Z (Z.of_nat n)) as Hn.
    { change 0 with (inject_Z 0). rewrite <- Zle_Qle. lia. }
    remember (inject_Z (Z.of_nat n)) as k eqn:Ek in *. clear Ek.
    rewrite Qabs_Qle_condition in *.
    exact_throttle. by_cases_Qltb; lra.
Qed.

Lemma hold_add {F : Type} `{Float64 F} (a b : nat) :
  forall prev raw : F, hold (a + b) prev raw = hold b (hold a prev raw) raw.
Proof.
  induction a as [|a IH]; intros prev raw; simpl; [reflexivity | apply IH].
Qed.

(** In binary64 a volume that has been reached stays. *)
Lemma hold_stays (m : uint8) (n : nat) :
  hold n (volume (F:=float) m) (volume m) = volume m.
Proof.
  induction n as [|n IH]; simpl; [reflexivity|].
  replace (volumeDisplayed (volume (F:=float) m) (volume m)) with (volume (F:=float) m);
    [exact IH|].
  symmetry. apply FloatAxioms.Leibniz.eqb_spec.
  generalize (volume_in_raws m). generalize (volume (F:=float) m).
  apply forallb_forall. vm_compute. reflexivity.
Qed.

(** In binary64, 20 invocations with the volume of a peak held take any
    displayed value the callback reaches to that volume. *)
Lemma hold_binary64 (periods : list (list uint8)) (m : uint8) :
  hold 20 (run periods) (volume (F:=float) m) = volume m.
Proof.
  rewrite wait_eq. apply FloatAxioms.Leibniz.eqb_spec.
  apply (reached_pairs
           (fun s r => PrimFloat.Leibniz.eqb (Reach.wait Reach.step 20 s r) r)).
  vm_compute. reflexivity.
Qed.

(** C6: with the volume held constant the displayed value equals it after
    a bounded number of invocations and from then on.  In exact arithmetic:
    after [n] invocations whenever the gap is at most [n] steps of 0.05,
    hence after 20 invocations, or more, for a previous value and a volume of
    [[0,1]].  In exact arithmetic and in binary64: after 20 periods, or
    more, of the same peak that follow any periods, the displayed value is
    the volume of that peak.  From 0.0 with the volume 1.0 the value is
    exactly 1.0 after 20 invocations, in exact arithmetic and in binary64. *)
Theorem hold_converges :
  (forall (prev raw : Q) (n : nat),
      Qabs (raw - prev) <= inject_Z (Z.of_nat n) * (5 # 100) ->
      hold n prev raw == raw) /\
  (forall (prev raw : Q) (n : nat),
      0 <= prev <= 1 -> 0 <= raw <= 1 -> (20 <= n)%nat ->
      hold n prev raw == raw) /\
  (forall (periods : list (list uint8)) (pSample : list uint8) (n : nat),
      (20 <= n)%nat ->
      run (F:=Q) (periods ++ repeat pSample n) == volume (maxSample pSample)) /\
  (forall (periods : list (list uint8)) (pSample : list uint8) (n : nat),
      (20 <= n)%nat ->
      run (F:=float) (periods ++ repeat pSample n) = volume (maxSample pSample)) /\
  hold 20 (0 : Q) 1 = 1 /\
  hold 20 0%float 1%float = 1%float.
Proof.
  assert (forall (prev raw : Q) (n : nat),
             0 <= prev <= 1 -> 0 <= raw <= 1 -> (20 <= n)%nat ->
             hold n prev raw == raw) as Hunit.
  { intros prev raw n Hprev Hraw Hn. apply hold_reaches.
    assert (20 <= inject_Z (Z.of_nat n)) as Hk.
    { change 20 with (inject_Z 20). rewrite <- Zle_Qle. lia. }
    remember (inject_Z (Z.of_nat n)) as k eqn:Ek in *. clear Ek.
    rewrite Qabs_Qle_condition. lra. }
  split; [|split; [|split; [|split; [|split]]]].
  - intros prev raw n. apply hold_reaches.
  - exact Hunit.
  - intros periods pSample n Hn. rewrite run_hold.
    apply Hunit; [|apply volume_exact_range|exact Hn].
    apply run_exact_range. split; vm_compute; discriminate.
  - intros periods pSample n Hn.
    rewrite run_hold.
    replace n with (20 + (n - 20))%nat by lia.
    rewrite hold_add, hold_binary64. apply hold_stays.
  - vm_compute. reflexivity.
  - vm_compute. reflexivity.
Qed.

(** ** The clip tracker *)

Section ClipTracker.
Import Clip.

Lemma first_clip (t0 : Z) (pSample : list uint8) :
  clips pSample = true -> after_one_clip t0 (callback pSample (start t0)).
Proof.
  intros Hclip. unfold callback. rewrite Hclip.
  unfold after_one_clip, IndicateClippingOccured. simpl.
  repeat split; [lia | left; repeat split; reflexivity].
Qed.

Lemma quiet_step (t0 : Z) (w w' : world) (e : event) :
  after_one_clip t0 w -> quiet e = true -> step w e = Some w' ->
  after_one_clip t0 w'.
Proof.
  intros (Hnow & Hcells & Hstate) Hquiet Hstep.
  destruct e as [dt | pSample | i | j]; simpl in Hstep.
  - destruct (Z.leb_spec 0 dt) as [Hdt|]; [|discriminate].
    injection Hstep as <-. unfold after_one_clip. simpl.
    repeat split; [lia | assumption |].
    destruct Hstate as [(Hs & Hr & Hf) | [(Hs & Hr & Hf & Ht) | (Hs & Hr & Hf & Ht)]];
      [left | right; left | right; right]; repeat split; auto; lia.
  - simpl in Hquiet. unfold callback in Hstep.
    apply negb_true_iff in Hquiet. rewrite Hquiet in Hstep.
    injection Hstep as <-. repeat split; assumption.
  - destruct Hstate as [(Hs & Hr & Hf) | [(Hs & Hr & Hf & Ht) | (Hs & Hr & Hf & Ht)]];
      rewrite Hs in Hstep.
    + destruct i as [|[|i]]; simpl in Hstep; try discriminate.
      destruct (Z.leb_spec (t0 + volumeClipWarningDuration) (now w)) as [Hlate|];
        [|discriminate].
      injection Hstep as <-. unfold after_one_clip, test. simpl.
      rewrite Hcells, Hr. simpl.
      repeat split; [lia | right; left; repeat split; auto].
    + destruct i; discriminate.
    + destruct i; discriminate.
  - destruct Hstate as [(Hs & Hr & Hf) | [(Hs & Hr & Hf & Ht) | (Hs & Hr & Hf & Ht)]];
      rewrite Hr in Hstep.
    + destruct j; discriminate.
    + destruct j as [|[|j]]; simpl in Hstep; try discriminate.
      injection Hstep as <-. unfold after_one_clip, reset. simpl.
      repeat split; [lia | assumption | right; right; repeat split; auto].
    + destruct j; discriminate.
Qed.

Lemma quiet_steps (t0 : Z) (es : list event) :
  forall w w', after_one_clip t0 w -> forallb quiet es = true ->
               steps w es = Some w' -> after_one_clip t0 w'.
Proof.
  induction es as [|e rest IH]; intros w w' Hinv Hquiet Hrun; simpl in *.
  - now injection Hrun as <-.
  - apply andb_prop in Hquiet. destruct Hquiet as [He Hrest].
    destruct (step w e) as [w1|] eqn:Hstep; [|discriminate].
    exact (IH w1 w' (quiet_step t0 w w1 e Hinv He Hstep) Hrest Hrun).
Qed.

Lemma untouched_step (w w' : world) (e : event) :
  untouched w -> quiet e = true -> step w e = Some w' -> untouched w'.
Proof.
  intros (Hc & Hp & Hs & Hr & Hf) Hquiet Hstep.
  destruct e as [dt | pSample | i | j]; simpl in Hstep.
  - destruct (0 <=? dt)%Z; [|discriminate].
    injection Hstep as <-. unfold untouched. simpl. auto.
  - simpl in Hquiet. unfold callback in Hstep.
    apply negb_true_iff in Hquiet. rewrite Hquiet in Hstep.
    injection Hstep as <-. unfold untouched. auto.
  - rewrite Hs in Hstep. destruct i; discriminate.
  - rewrite Hr in Hstep. destruct j; discriminate.
Qed.

Lemma untouched_steps (es : list event) :
  forall w w', untouched w -> forallb quiet es = true ->
               steps w es = Some w' -> untouched w'.
Proof.
  induction es as [|e rest IH]; intros w w' Hinv Hquiet Hrun; simpl in *.
  - now injection Hrun as <-.
  - apply andb_prop in Hquiet. destruct Hquiet as [He Hrest].
    destruct (step w e) as [w1|] eqn:Hstep; [|discriminate].
    exact (IH w1 w' (untouched_step w w1 e Hinv He Hstep) Hrest Hrun).
Qed.

(** C8: the tracker starts Clear.  A period whose peak is above 240 reaches
    the clip threshold, and the callback does not count it as a clip event:
    its test is [maxSample == 240].  After such a period, followed by any
    events none of which is a period of peak 240, the tracker is still Clear,
    no reset is pending and no goroutine was started: the tracker has not
    been in ClippedRecently at all. *)
Theorem clip_above_threshold_missed (t0 : Z) (pSample : list uint8)
    (es : list event) (w : world)
    (Hpeak : (240 < u8 (maxSample pSample))%Z)
    (Hquiet : forallb quiet es = true)
    (Hrun : steps (start t0) (Period pSample :: es) = Some w) :
  clips pSample = false /\
  callback pSample (start t0) = start t0 /\
  ClippedRecently w = false /\
  cancelPendingReset w = None /\
  asleep w = [] /\ resetting w = [].
Proof.
  assert (clips pSample = false) as Hno.
  { unfold clips. apply Z.eqb_neq. lia. }
  split; [exact Hno|].
  assert (callback pSample (start t0) = start t0) as Hsame
    by (unfold callback; now rewrite Hno).
  split; [exact Hsame|].
  simpl in Hrun. rewrite Hsame in Hrun.
  assert (untouched (start t0)) as H0 by (unfold untouched; simpl; auto).
  destruct (untouched_steps es _ w H0 Hquiet Hrun) as (_ & Hp & Hs & Hr & Hf).
  auto.
Qed.

(** The theorem for a period of peak 255 at the instant 0, then four
    seconds and a quiet period. *)
Lemma clip_above_threshold_missed_witness :
  exists w,
    steps (start 0) [Period [x80; xff]; Elapse 4000000000; Period [x80]]
      = Some w /\
    (clips [x80; xff] = false /\
     callback [x80; xff] (start 0) = start 0 /\
     ClippedRecently w = false /\
     cancelPendingReset w = None /\
     asleep w = [] /\ resetting w = []).
Proof.
  eexists. split; [reflexivity|].
  apply (clip_above_threshold_missed 0 [x80; xff]
           [Elapse 4000000000; Period [x80]]); reflexivity.
Defined.
End ClipTracker.

(** ** The shutdown *)

Section ShutdownFacts.
Import Shutdown.

Ltac control_cases p :=
  destruct p as [m u d eff st]; simpl in *;
  destruct m, u, d as [|s0 d]; simpl in *.

Ltac settle :=
  unfold shutdown_path in *; simpl in *;
  rewrite ?filter_app; simpl; rewrite ?app_nil_r;
  intuition (try congruence).

Lemma sound_step (answer : option string) (panics : bool)
    (p : process) (c : choice) :
  sound answer panics p -> sound answer panics (step (started answer panics) p c).
Proof.
  intros Hp. unfold step.
  destruct (status p) eqn:Hst; [exact Hp|].
  unfold sound in *. destruct Hp as (Hpath & Hstat & Hlog & Hpc).
  destruct c as [| |s]; unfold main_step, ui_step, deliver, offer, started.
  - control_cases p; try contradiction; destruct panics;
      unfold shutdown_path in *; simpl in *;
      rewrite ?filter_app, ?Hpath; settle.
  - control_cases p; destruct answer; settle.
  - control_cases p; settle.
Qed.

Lemma sound_run (answer : option string) (panics : bool) (cs : list choice) :
  forall p, sound answer panics p ->
            sound answer panics (run (started answer panics) p cs).
Proof.
  induction cs as [|c rest IH]; intros p Hp; simpl; [exact Hp|].
  apply IH, sound_step, Hp.
Qed.

Lemma sound_initial (answer : option string) (panics : bool) :
  sound answer panics initial.
Proof. unfold sound. simpl. auto. Qed.

Lemma orderly_step (err : string) (panics : bool) (p : process) (c : choice) :
  is_deliver c = false ->
  sound (Some err) panics p -> orderly err panics p ->
  orderly err panics (step (ui_fails err panics) p c).
Proof.
  intros Hc Hs Hp. unfold step.
  destruct (status p) eqn:Hst; [exact Hp|].
  unfold sound, orderly in *. destruct Hs as (Hpath & Hstat & Hlog & Hpc).
  destruct c as [| |s]; [| |discriminate];
    unfold main_step, ui_step, offer, ui_fails.
  - control_cases p; try contradiction; destruct panics;
      intuition (try congruence); subst; simpl; auto.
  - control_cases p; intuition (try congruence); subst; simpl; auto;
      try injection Hlog as ->; auto.
Qed.

Lemma orderly_run (err : string) (panics : bool) (cs : list choice) :
  forall p,
    existsb is_deliver cs = false ->
    sound (Some err) panics p -> orderly err panics p ->
    orderly err panics (run (ui_fails err panics) p cs).
Proof.
  induction cs as [|c rest IH]; intros p Hcs Hs Hp; simpl; [exact Hp|].
  simpl in Hcs. apply orb_false_iff in Hcs. destruct Hcs as [Hc Hrest].
  apply IH; auto.
  - exact (sound_step (Some err) panics p c Hs).
  - now apply orderly_step.
Qed.

(** From any moment of a run in which the device started, the steps of
    [to_the_end] take the process to its exit. *)
Lemma ends (answer : option string) (panics : bool) (p : process) :
  sound answer panics p ->
  status (run (started answer panics) p to_the_end)
  = Some (if panics then 2 else 0)%Z.
Proof.
  intros Hp. unfold sound in Hp. destruct Hp as (Hpath & Hstat & Hlog & Hpc).
  unfold to_the_end, run, started.
  destruct answer as [err|]; control_cases p; subst st;
    try contradiction; try discriminate; try (subst panics; reflexivity);
    try (exfalso; apply Hpc; reflexivity);
    try (destruct panics; reflexivity).
  all: destruct d; destruct panics; reflexivity.
Qed.

Lemma exit_is_known (answer : option string) (panics : bool)
    (p : process) (code : Z) :
  sound answer panics p -> status p = Some code ->
  code = (if panics then 2 else 0)%Z /\
  shutdown_path (effects p) = ending panics.
Proof.
  unfold sound. intros (Hpath & Hstat & _) Hcode.
  rewrite Hpath. rewrite Hstat in Hcode.
  destruct (main p); try discriminate.
  injection Hcode as <-. auto.
Qed.

(** C9: [Run] fails with [err], as it does without a terminal, and the
    device has started.  When [app.Stop()] panics, as the library's does after
    [Run] has failed while initializing the screen: whatever the order of the
    steps of the two goroutines and whatever signals arrive, a process that
    has exited has exited with status 2, after [device.Uninit()], the panic
    and the deferred call; [app.Stop()] has not returned and [os.Exit(0)] is
    not reached; when no signal arrives all the process did is hand the
    message of the failure to the logger, then these steps; and from any
    moment the process reaches that exit once both goroutines are given
    their steps.  When [app.Stop()] returns, the process exits with status
    0 after [device.Uninit()], [app.Stop()], [os.Exit(0)], the steps of a run
    in which nothing fails and a signal arrives. *)
Theorem ui_failure_crashes_in_Stop (err : string) (cs : list choice) :
  (forall code,
      status (run (ui_fails err true) initial cs) = Some code ->
      code = 2%Z /\
      shutdown_path (effects (run (ui_fails err true) initial cs))
        = [DeviceUninit; Panic; ContextUninit; Exit 2]) /\
  ~ In AppStop (effects (run (ui_fails err true) initial cs)) /\
  ~ In (Exit 0) (effects (run (ui_fails err true) initial cs)) /\
  (existsb is_deliver cs = false ->
   status (run (ui_fails err true) initial cs) <> None ->
   effects (run (ui_fails err true) initial cs)
     = [Log (String.append "closed unsuccessfully: " err);
        DeviceUninit; Panic; ContextUninit; Exit 2]) /\
  status (run (ui_fails err true) (run (ui_fails err true) initial cs) to_the_end)
    = Some 2%Z /\
  (forall code,
      status (run (ui_fails err false) initial cs) = Some code ->
      code = 0%Z /\
      shutdown_path (effects (run (ui_fails err false) initial cs))
        = [DeviceUninit; AppStop; Exit 0]) /\
  (existsb is_deliver cs = false ->
   status (run (ui_fails err false) initial cs) <> None ->
   effects (run (ui_fails err false) initial cs)
     = [Log (String.append "closed unsuccessfully: " err);
        DeviceUninit; AppStop; Exit 0]) /\
  status (run (ui_fails err false) (run (ui_fails err false) initial cs) to_the_end)
    = Some 0%Z /\
  effects (run all_well initial
             [Main; Main; Deliver SIGTERM; Main; Main; Main; Main])
    = [DeviceUninit; AppStop; Exit 0].
Proof.
  pose proof (sound_run (Some err) true cs initial (sound_initial _ _)) as Hs.
  pose proof (sound_run (Some err) false cs initial (sound_initial _ _)) as Hw.
  change (started (Some err) true) with (ui_fails err true) in Hs.
  change (started (Some err) false) with (ui_fails err false) in Hw.
  assert (forall panics, orderly err panics initial) as Hi
    by (intros panics; unfold orderly; simpl; auto).
  assert (forall e, is_log e = false -> e <> DeviceUninit -> e <> Panic ->
                    e <> ContextUninit -> e <> Exit 2 ->
                    ~ In e (effects (run (ui_fails err true) initial cs)))
    as Hin.
  { intros e He H1 H2 H3 H4 Hi'.
    assert (In e (shutdown_path (effects (run (ui_fails err true) initial cs))))
      as Hp by (apply filter_In; split; [exact Hi' | now rewrite He]).
    destruct Hs as (Hpath & _ & _ & Hpc). rewrite Hpath in Hp.
    destruct (main (run (ui_fails err true) initial cs)),
             (ui (run (ui_fails err true) initial cs));
      simpl in Hp, Hpc; try discriminate; try contradiction;
      intuition congruence. }
  split; [|split; [|split; [|split; [|split; [|split; [|split; [|split]]]]]]].
  - intros code Hcode.
    exact (exit_is_known (Some err) true _ code Hs Hcode).
  - apply Hin; [reflexivity | discriminate ..].
  - apply Hin; [reflexivity | discriminate ..].
  - intros Hquiet Hexited.
    pose proof (orderly_run err true cs initial Hquiet (sound_initial _ _)
                  (Hi true)) as Ho.
    destruct Hs as (_ & Hstat & _). rewrite Hstat in Hexited.
    unfold orderly in Ho.
    destruct (main (run (ui_fails err true) initial cs)); try congruence.
    destruct Ho as (_ & _ & ->). reflexivity.
  - exact (ends (Some err) true _ Hs).
  - intros code Hcode.
    exact (exit_is_known (Some err) false _ code Hw Hcode).
  - intros Hquiet Hexited.
    pose proof (orderly_run err false cs initial Hquiet (sound_initial _ _)
                  (Hi false)) as Ho.
    destruct Hw as (_ & Hstat & _). rewrite Hstat in Hexited.
    unfold orderly in Ho.
    destruct (main (run (ui_fails err false) initial cs)); try congruence.
    destruct Ho as (_ & _ & ->). reflexivity.
  - exact (ends (Some err) false _ Hw).
  - reflexivity.
Qed.
End ShutdownFacts.

(** * Further properties *)

(** ** The peak of joined and reordered buffers *)

Lemma u8_louder (a b : uint8) : u8 (louder a b) = Z.max (u8 a) (u8 b).
Proof.
  destruct (louder_cases a b) as [[-> H] | [-> H]]; lia.
Qed.

Lemma u8_loop (pSample : list uint8) :
  forall acc,
    u8 (fold_left louder pSample acc)
    = Z.max (u8 acc) (u8 (fold_left louder pSample x00)).
Proof.
  induction pSample as [|x rest IH]; intros acc; simpl.
  - change (u8 x00) with 0%Z. pose proof (u8_range acc). lia.
  - rewrite (IH (louder acc x)), (IH (louder x00 x)), !u8_louder.
    change (u8 x00) with 0%Z. pose proof (u8_range x). lia.
Qed.

(** The peak of two buffers one after the other is the larger of their
    peaks; the peak of a buffer with one more sample in front is the larger
    of that sample and the peak of the rest; and the peak does not depend on
    the order of the samples. *)
Theorem maxSample_joined :
  (forall a b : list uint8,
      u8 (maxSample (a ++ b)) = Z.max (u8 (maxSample a)) (u8 (maxSample b))) /\
  (forall (s : uint8) (b : list uint8),
      u8 (maxSample (s :: b)) = Z.max (u8 s) (u8 (maxSample b))) /\
  (forall a b : list uint8, Permutation a b -> maxSample a = maxSample b).
Proof.
  assert (forall (s : uint8) (b : list uint8),
             u8 (maxSample (s :: b)) = Z.max (u8 s) (u8 (maxSample b))) as Hcons.
  { intros s b. unfold maxSample. simpl. rewrite u8_loop, u8_louder.
    change (u8 x00) with 0%Z. pose proof (u8_range s). lia. }
  split; [|split].
  - intros a b. unfold maxSample. rewrite fold_left_app. apply u8_loop.
  - exact Hcons.
  - intros a b Hperm. apply u8_inj.
    induction Hperm as [|x l l' _ IH|x y l|l l' l'' _ IH1 _ IH2].
    + reflexivity.
    + rewrite !Hcons, IH. reflexivity.
    + rewrite !Hcons. lia.
    + congruence.
Qed.

(** ** The scaler of the variant with the clip warning *)

Lemma minus120_range (m : uint8) : (0 <= Warn.minus120 m < 256)%Z.
Proof. unfold Warn.minus120. apply Z.mod_pos_bound. lia. Qed.

Lemma minus120_high (m : uint8) :
  (120 <= u8 m)%Z -> Warn.minus120 m = (u8 m - 120)%Z.
Proof.
  intros Hm. unfold Warn.minus120. pose proof (u8_range m).
  apply Z.mod_small. lia.
Qed.

Lemma minus120_low (m : uint8) :
  (u8 m < 120)%Z -> Warn.minus120 m = (u8 m + 136)%Z.
Proof.
  intros Hm. unfold Warn.minus120. pose proof (u8_range m).
  replace (u8 m - 120)%Z with (u8 m + 136 + (-1) * 256)%Z by lia.
  rewrite Z.mod_add by lia. apply Z.mod_small. lia.
Qed.

(** The volume of the variant in exact arithmetic: the wrapped difference
    over 120, cut at 1. *)
Lemma warn_volume_exact (m : uint8) :
  (Warn.minus120 m < 120)%Z /\
  Warn.volume (F:=Q) m == inject_Z (Warn.minus120 m) / 120 \/
  (120 <= Warn.minus120 m)%Z /\ Warn.volume (F:=Q) m = 1.
Proof.
  unfold Warn.volume, Warn.Max, Min. cbn [fltb fdiv of_int exact].
  pose proof (minus120_range m) as [H0 _].
  destruct (Z.lt_ge_cases (Warn.minus120 m) 120) as [Hlt | Hge]; [left | right];
    (split; [assumption|]).
  - rewrite Zle_Qle in H0. rewrite Zlt_Qlt in Hlt.
    assert (0 <= inject_Z (Warn.minus120 m) / inject_Z 120 < 1) as Hx.
    { split.
      - apply Qle_shift_div_l; [reflexivity|]. now rewrite Qmult_0_l.
      - apply Qlt_shift_div_r; [reflexivity|]. now rewrite Qmult_1_l. }
    change (inject_Z 120) with (120 : Q) in *.
    remember (inject_Z (Warn.minus120 m) / 120) as x eqn:Ex in *.
    clear Ex H0 Hlt. unfold inject_Z.
    destruct (Qltb x 1) eqn:E1;
      [apply Qltb_true in E1 | apply Qltb_false in E1];
      by_cases_Qltb; lra.
  - rewrite Zle_Qle in Hge.
    assert (1 <= inject_Z (Warn.minus120 m) / inject_Z 120) as Hx.
    { apply Qle_shift_div_l; [reflexivity|]. now rewrite Qmult_1_l. }
    remember (inject_Z (Warn.minus120 m) / inject_Z 120) as x eqn:Ex in *.
    clear Ex H0 Hge. unfold inject_Z.
    destruct (Qltb x 1) eqn:E1;
      [apply Qltb_true in E1 | apply Qltb_false in E1];
      by_cases_Qltb; solve [lra | reflexivity].
Qed.

Ltac each_byte m :=
  destruct m; intros;
  first [ vm_compute; reflexivity
        | exfalso;
          match goal with
          | H : (_ <= _)%Z |- _ => vm_compute in H; apply H; reflexivity
          | H : (_ < _)%Z |- _ => vm_compute in H; discriminate H
          end ].

Lemma warn_volume_binary64_low (m : uint8) :
  (u8 m < 120)%Z -> Warn.volume (F:=float) m = 1%float.
Proof. each_byte m. Qed.

Lemma warn_volume_binary64_high (m : uint8) :
  (240 <= u8 m)%Z -> Warn.volume (F:=float) m = 1%float.
Proof. each_byte m. Qed.

Lemma warn_volume_binary64_rising (a b : uint8) :
  (120 <= u8 a)%Z -> (u8 a < u8 b)%Z -> (u8 b <= 240)%Z ->
  PrimFloat.ltb (Warn.volume a) (Warn.volume b) = true.
Proof.
  intros Ha Hab Hb.
  assert ((120 <=? u8 a)%Z && (u8 a <? u8 b)%Z && (u8 b <=? 240)%Z = true) as Hc.
  { rewrite !andb_true_iff, !Z.leb_le, Z.ltb_lt. auto. }
  revert Hc. apply implb_true_iff.
  apply (byte_pairs_spec (Warn.volume (F:=float))
           (fun a va b vb =>
              implb ((120 <=? u8 a)%Z && (u8 a <? u8 b)%Z && (u8 b <=? 240)%Z)
                    (PrimFloat.ltb va vb))).
  vm_compute. reflexivity.
Qed.

Lemma warn_volume_exact_range (m : uint8) : 0 <= Warn.volume (F:=Q) m <= 1.
Proof.
  destruct (warn_volume_exact m) as [[Hlt E] | [Hge E]].
  - rewrite E. pose proof (minus120_range m) as [H0 _].
    rewrite Zle_Qle in H0. rewrite Zlt_Qlt in Hlt. split.
    + apply Qle_shift_div_l; [reflexivity|]. now rewrite Qmult_0_l.
    + apply Qle_shift_div_r; [reflexivity|]. rewrite Qmult_1_l.
      now apply Qlt_le_weak.
  - rewrite E. split; discriminate.
Qed.

Lemma warn_volume_exact_full (m : uint8) :
  (u8 m < 120)%Z \/ (240 <= u8 m)%Z -> Warn.volume (F:=Q) m = 1.
Proof.
  intros Hm. pose proof (u8_range m).
  destruct (warn_volume_exact m) as [[Hlt E] | [Hge E]]; [|exact E].
  destruct Hm as [Hm | Hm].
  - rewrite minus120_low in Hlt by exact Hm. lia.
  - rewrite minus120_high in Hlt by lia. lia.
Qed.

Lemma maxSample_one (m : uint8) : maxSample [m] = m.
Proof.
  apply u8_inj. unfold maxSample. simpl. rewrite u8_louder.
  change (u8 x00) with 0%Z. pose proof (u8_range m). lia.
Qed.

(** The scaler of the variant, in exact arithmetic and in binary64: the
    volume of every peak lies in [[0,1]]; from the peak 120 to the peak 240
    it is [(peak - 120) / 120], which grows strictly, from 0 at the peak 120;
    and it is 1 from the peak 240 on. *)
Theorem warn_volume_shape :
  (forall m : uint8,
      0 <= Warn.volume (F:=Q) m <= 1 /\ in_unit64 (Warn.volume m) = true) /\
  (forall m : uint8,
      (120 <= u8 m <= 240)%Z ->
      Warn.volume (F:=Q) m == inject_Z (u8 m - 120) / 120) /\
  (forall a b : uint8,
      (120 <= u8 a)%Z -> (u8 a < u8 b)%Z -> (u8 b <= 240)%Z ->
      Warn.volume (F:=Q) a < Warn.volume (F:=Q) b /\
      PrimFloat.ltb (Warn.volume a) (Warn.volume b) = true) /\
  (forall m : uint8,
      (240 <= u8 m)%Z ->
      Warn.volume (F:=Q) m = 1 /\ Warn.volume (F:=float) m = 1%float) /\
  Warn.volume (F:=Q) "120"%byte == 0 /\
  Warn.volume (F:=float) "120"%byte = 0%float.
Proof.
  assert (forall m : uint8,
             (120 <= u8 m <= 240)%Z ->
             Warn.volume (F:=Q) m == inject_Z (u8 m - 120) / 120) as Hline.
  { intros m Hm.
    destruct (warn_volume_exact m) as [[Hlt E] | [Hge E]];
      rewrite minus120_high in * by lia.
    - exact E.
    - assert (u8 m = 240)%Z as -> by lia. rewrite E. reflexivity. }
  split; [|split; [|split; [|split; [|split]]]].
  - intros m. split.
    + apply warn_volume_exact_range.
    + revert m. apply byte_all_spec. vm_compute. reflexivity.
  - exact Hline.
  - intros a b Ha Hab Hb. split.
    + rewrite (Hline a), (Hline b) by lia.
      unfold Qdiv. apply Qmult_lt_compat_r; [reflexivity|].
      rewrite <- Zlt_Qlt. lia.
    + now apply warn_volume_binary64_rising.
  - intros m Hm. split.
    + apply warn_volume_exact_full. now right.
    + now apply warn_volume_binary64_high.
  - reflexivity.
  - reflexivity.
Qed.

(** Below the peak 120 the subtraction of [uint8] wraps around and the
    volume of the variant is 1, not 0, in exact arithmetic and in binary64:
    the peak 119 is shown at full volume and the peak 120 at none.  So is the
    peak 0 of a buffer without samples, and one such period takes the
    displayed value from 0 to one third. *)
Theorem warn_volume_wraps :
  (forall m : uint8,
      (u8 m < 120)%Z ->
      Warn.minus120 m = (u8 m + 136)%Z /\
      Warn.volume (F:=Q) m = 1 /\ Warn.volume (F:=float) m = 1%float) /\
  Warn.volume (F:=Q) (maxSample []) = 1 /\
  Warn.volume (F:=float) (maxSample []) = 1%float /\
  Warn.run (F:=Q) [[]] == 1 # 3 /\
  Warn.run (F:=float) [[]] = PrimFloat.div 1 3.
Proof.
  split; [|repeat split].
  intros m Hm. split; [now apply minus120_low|]. split.
  - apply warn_volume_exact_full. now left.
  - now apply warn_volume_binary64_low.
Qed.

(** The clip test and the scaler of the variant: a period that the callback
    counts as clipping (peak 240) is shown at full volume; a peak above 240,
    or below 120, is shown at full volume too, without being counted as
    clipping. *)
Theorem clip_is_full_volume :
  (forall pSample : list uint8,
      Clip.clips pSample = true ->
      u8 (maxSample pSample) = 240%Z /\
      Warn.volume (F:=Q) (maxSample pSample) = 1 /\
      Warn.volume (F:=float) (maxSample pSample) = 1%float) /\
  (forall m : uint8,
      (240 < u8 m)%Z \/ (u8 m < 120)%Z ->
      Clip.clips [m] = false /\
      Warn.volume (F:=Q) m = 1 /\ Warn.volume (F:=float) m = 1%float).
Proof.
  split.
  - intros pSample Hclip. unfold Clip.clips in Hclip.
    apply Z.eqb_eq in Hclip. split; [exact Hclip|]. split.
    + apply warn_volume_exact_full. right. lia.
    + apply warn_volume_binary64_high. lia.
  - intros m Hm. split.
    + unfold Clip.clips. rewrite maxSample_one. apply Z.eqb_neq. lia.
    + split.
      * apply warn_volume_exact_full. destruct Hm; [right | left]; lia.
      * destruct Hm as [Hm | Hm].
        -- apply warn_volume_binary64_high. lia.
        -- now apply warn_volume_binary64_low.
Qed.

(** ** The smoothing of the variant with the clip warning *)

Ltac exact_smoothing :=
  unfold Warn.volumeDisplayed; cbn [fltb fadd fsub fdiv lit of_int exact];
  cbv zeta; unfold Qdiv, inject_Z; change (/ (3 # 1)) with (1 # 3).

Lemma smoothing_snap (prev raw : Q) :
  Qabs (raw - prev) <= 2 # 100 -> Warn.volumeDisplayed prev raw = raw.
Proof.
  rewrite Qabs_Qle_condition. intros [Hlo Hhi].
  exact_smoothing. by_cases_Qltb; solve [reflexivity | lra].
Qed.

Lemma smoothing_rest (n : nat) (raw : Q) : Warn.hold n raw raw = raw.
Proof.
  induction n as [|n IH]; simpl; [reflexivity|].
  rewrite smoothing_snap; [exact IH|].
  rewrite Qabs_Qle_condition. lra.
Qed.

Lemma smoothing_range (prev raw : Q) :
  0 <= prev <= 1 -> 0 <= raw <= 1 -> 0 <= Warn.volumeDisplayed prev raw <= 1.
Proof.
  intros Hp Hr. exact_smoothing. by_cases_Qltb; lra.
Qed.

Lemma smoothing_run_range (periods : list (list uint8)) :
  forall prev : Q,
    0 <= prev <= 1 -> 0 <= fold_left Warn.Data periods prev <= 1.
Proof.
  induction periods as [|p rest IH]; intros prev Hp; simpl; [exact Hp|].
  apply IH. apply smoothing_range; [exact Hp | apply warn_volume_exact_range].
Qed.

Lemma span_positive (n : nat) : 0 < Warn.span n.
Proof.
  induction n as [|n IH]; simpl; [reflexivity|].
  remember (Warn.span n) as k eqn:Ek in *. clear Ek. lra.
Qed.

(** [S n] invocations, or more, close a gap of at most [span n]. *)
Lemma smoothing_closes (n : nat) :
  forall (prev raw : Q) (more : nat),
    Qabs (raw - prev) <= Warn.span n ->
    Warn.hold (S n + more) prev raw == raw.
Proof.
  induction n as [|n IH]; intros prev raw more Hgap.
  - change (Warn.hold (1 + more) prev raw)
      with (Warn.hold more (Warn.volumeDisplayed prev raw) raw).
    change (Warn.span 0) with (2 # 100) in Hgap.
    rewrite (smoothing_snap prev raw Hgap), smoothing_rest. reflexivity.
  - change (Warn.hold (S (S n) + more) prev raw)
      with (Warn.hold (S n + more) (Warn.volumeDisplayed prev raw) raw).
    destruct (Qlt_le_dec (2 # 100) (Qabs (raw - prev))) as [Hfar | Hnear].
    + apply IH.
      change (Warn.span (S n)) with ((3 # 2) * Warn.span n) in Hgap.
      pose proof (span_positive n) as Hk.
      remember (Warn.span n) as k eqn:Ek in *. clear Ek.
      rewrite Qabs_Qle_condition in *.
      assert (2 # 100 < raw - prev \/ 2 # 100 < prev - raw) as Hside.
      { destruct (Qlt_le_dec (2 # 100) (raw - prev)) as [H1 | H1]; [now left|].
        right. destruct (Qlt_le_dec (2 # 100) (prev - raw)) as [H2 | H2];
          [exact H2|].
        exfalso. apply (Qlt_not_le _ _ Hfar).
        apply Qabs_Qle_condition. lra. }
      clear Hfar. exact_smoothing. destruct Hside; by_cases_Qltb; lra.
    + rewrite (smoothing_snap prev raw Hnear), smoothing_rest. reflexivity.
Qed.

Lemma follows_spec (n : nat) :
  forall a b prev : float,
    Warn.follows n a b prev = true ->
    Warn.hold n prev b = b /\
    forall k, (k < n)%nat -> between64 a (Warn.hold k prev b) b = true.
Proof.
  induction n as [|n IH]; intros a b prev Hf; simpl in Hf.
  - split; [|intros k Hk; lia].
    simpl. now apply FloatAxioms.Leibniz.eqb_spec.
  - apply andb_prop in Hf. destruct Hf as [Hb Hf].
    destruct (IH a b _ Hf) as [Hend Hmid].
    split; [exact Hend|].
    intros [|k] Hk; [exact Hb|].
    simpl. apply Hmid. lia.
Qed.

(** The smoothing of the variant.  In exact arithmetic, for every previous
    value and volume: the result lies between the two; it is the volume itself
    when the gap is at most 0.02, and otherwise leaves two thirds of the gap;
    values of [[0,1]] stay in [[0,1]], so the displayed value does after any
    periods; and for values of [[0,1]] the displayed value equals a volume
    held constant after 11 invocations, or more.  In binary64, from rest at
    the volume of any peak, and from the initial 0, with the volume of any
    peak held: the displayed value stays between the two and is that volume
    after 11 invocations. *)
Theorem smoothing_follows :
  (forall prev raw : Q,
      (prev <= raw -> prev <= Warn.volumeDisplayed prev raw <= raw) /\
      (raw <= prev -> raw <= Warn.volumeDisplayed prev raw <= prev) /\
      (Qabs (raw - prev) <= 2 # 100 -> Warn.volumeDisplayed prev raw = raw) /\
      (2 # 100 < Qabs (raw - prev) ->
       raw - Warn.volumeDisplayed prev raw == (2 # 3) * (raw - prev))) /\
  (forall prev raw : Q,
      0 <= prev <= 1 -> 0 <= raw <= 1 ->
      0 <= Warn.volumeDisplayed prev raw <= 1) /\
  (forall periods : list (list uint8), 0 <= Warn.run (F:=Q) periods <= 1) /\
  (forall (prev raw : Q) (n : nat),
      0 <= prev <= 1 -> 0 <= raw <= 1 -> (11 <= n)%nat ->
      Warn.hold n prev raw == raw) /\
  (forall a b : uint8,
      Warn.hold 11 (Warn.volume (F:=float) a) (Warn.volume b) = Warn.volume b /\
      Warn.hold 11 0%float (Warn.volume b) = Warn.volume b /\
      forall k, (k < 11)%nat ->
        between64 (Warn.volume a) (Warn.hold k (Warn.volume a) (Warn.volume b))
                  (Warn.volume b) = true /\
        between64 0 (Warn.hold k 0%float (Warn.volume b)) (Warn.volume b) = true).
Proof.
  split; [|split; [|split; [|split]]].
  - intros prev raw. split; [|split; [|split]].
    + intros Hle. exact_smoothing. by_cases_Qltb; lra.
    + intros Hle. exact_smoothing. by_cases_Qltb; lra.
    + apply smoothing_snap.
    + intros Hfar.
      assert (2 # 100 < raw - prev \/ 2 # 100 < prev - raw) as Hside.
      { destruct (Qlt_le_dec (2 # 100) (raw - prev)) as [H1 | H1]; [now left|].
        right. destruct (Qlt_le_dec (2 # 100) (prev - raw)) as [H2 | H2];
          [exact H2|].
        exfalso. apply (Qlt_not_le _ _ Hfar).
        apply Qabs_Qle_condition. lra. }
      clear Hfar. exact_smoothing. destruct Hside; by_cases_Qltb; lra.
  - apply smoothing_range.
  - intros periods. apply smoothing_run_range. split; vm_compute; discriminate.
  - intros prev raw n Hprev Hraw Hn.
    replace n with (11 + (n - 11))%nat by lia.
    apply (smoothing_closes 10).
    assert (1 <= Warn.span 10) as Hspan by (vm_compute; discriminate).
    remember (Warn.span 10) as k eqn:Ek in *. clear Ek.
    rewrite Qabs_Qle_condition. lra.
  - intros a b.
    assert (Warn.follows 11 (Warn.volume a) (Warn.volume b) (Warn.volume a) = true)
      as Hab.
    { apply (byte_pairs_spec (Warn.volume (F:=float))
               (fun _ va _ vb => Warn.follows 11 va vb va)).
      vm_compute. reflexivity. }
    assert (Warn.follows 11 0%float (Warn.volume b) 0%float = true) as H0b.
    { apply (byte_all_spec
               (fun b => Warn.follows 11 0%float (Warn.volume b) 0%float)).
      vm_compute. reflexivity. }
    destruct (follows_spec 11 _ _ _ Hab) as [Ea Ma].
    destruct (follows_spec 11 _ _ _ H0b) as [E0 M0].
    split; [exact Ea|]. split; [exact E0|].
    intros k Hk. split; [now apply Ma | now apply M0].
Qed.

(** ** The background colour of the variant *)

(** After the update the filler is red exactly when the tracker says
    ClippedRecently; a colour other than red is left as it is while the
    tracker is Clear, and red is replaced by the default colour; updating
    again with the same flag changes nothing. *)
Theorem background_shows_clipping (cur : Warn.Color) (ClippedRecently : bool) :
  (Warn.updateBackground cur ClippedRecently = Warn.backgroundColorClipping
   <-> ClippedRecently = true) /\
  (ClippedRecently = false -> cur <> Warn.ColorRed ->
   Warn.updateBackground cur ClippedRecently = cur) /\
  (ClippedRecently = false -> cur = Warn.ColorRed ->
   Warn.updateBackground cur ClippedRecently = Warn.ColorDefault) /\
  Warn.updateBackground (Warn.updateBackground cur ClippedRecently) ClippedRecently
  = Warn.updateBackground cur ClippedRecently.
Proof.
  destruct cur, ClippedRecently; cbn; repeat split;
    try congruence; try discriminate; intros; exfalso; auto.
Qed.

(** ** The clip tracker over any events *)

Section ClipAnyEvents.
Import Clip ClipHistory.

(** The tracker starts Clear.  After a single clip event at the instant
    [t0], a period of peak 240, followed by any events none of which is a
    clip event: before [t0] plus [volumeClipWarningDuration] the tracker is
    in ClippedRecently; it is as long as the goroutine sleeps or has not yet
    assigned, and from [t0] plus the duration on the sleep can return and the
    goroutine can test and assign, which puts the tracker in Clear; once the
    goroutine has assigned, not before [t0] plus the duration, the tracker is
    in Clear. *)
Theorem single_clip_then_clear (t0 : Z) (pSample : list uint8)
    (es : list event) (w : world)
    (Hclip : clips pSample = true)
    (Hquiet : forallb quiet es = true)
    (Hrun : steps (start t0) (Period pSample :: es) = Some w) :
  ClippedRecently (start t0) = false /\
  ((now w < t0 + volumeClipWarningDuration)%Z -> ClippedRecently w = true) /\
  (asleep w <> [] ->
     ClippedRecently w = true /\
     forall dt, (0 <= dt)%Z -> (t0 + volumeClipWarningDuration <= now w + dt)%Z ->
       exists w', steps w [Elapse dt; Wake 0; Reset 0] = Some w' /\
                  ClippedRecently w' = false /\
                  asleep w' = [] /\ resetting w' = []) /\
  (resetting w <> [] ->
     ClippedRecently w = true /\
     (t0 + volumeClipWarningDuration <= now w)%Z /\
     exists w', step w (Reset 0) = Some w' /\
                ClippedRecently w' = false /\
                asleep w' = [] /\ resetting w' = []) /\
  (asleep w = [] -> resetting w = [] ->
     ClippedRecently w = false /\ (t0 + volumeClipWarningDuration <= now w)%Z).
Proof.
  simpl in Hrun.
  pose proof (quiet_steps t0 es _ w (first_clip t0 pSample Hclip) Hquiet Hrun)
    as (Hnow & Hcells & Hstate).
  split; [reflexivity|].
  destruct Hstate as [(Hs & Hr & Hf) | [(Hs & Hr & Hf & Ht) | (Hs & Hr & Hf & Ht)]].
  - split; [auto|]. split; [|split].
    + intros _. split; [exact Hf|].
      intros dt Hdt Hlate. simpl.
      destruct (Z.leb_spec 0 dt); [|lia].
      simpl. rewrite Hs. simpl.
      destruct (Z.leb_spec (t0 + volumeClipWarningDuration) (now w + dt)); [|lia].
      simpl. rewrite Hcells, Hr. simpl.
      eexists. split; [reflexivity|]. simpl. auto.
    + rewrite Hr. congruence.
    + rewrite Hs. discriminate.
  - split; [auto|]. split; [|split].
    + rewrite Hs. congruence.
    + intros _. split; [exact Hf|]. split; [exact Ht|].
      simpl. rewrite Hr. simpl.
      eexists. split; [reflexivity|]. simpl. auto.
    + rewrite Hr. discriminate.
  - split; [lia|]. split; [|split].
    + rewrite Hs. congruence.
    + rewrite Hr. congruence.
    + auto.
Qed.

(** The theorem for a clip at the instant 0, then two seconds, a quiet
    period, two more seconds, the return of the sleep and the assignment. *)
Lemma single_clip_then_clear_witness :
  exists w,
    steps (start 0)
          [Period [x80; xf0]; Elapse 2000000000; Period [x80];
           Elapse 2000000000; Wake 0; Reset 0] = Some w /\
    (ClippedRecently (start 0) = false /\
     ((now w < 0 + volumeClipWarningDuration)%Z -> ClippedRecently w = true) /\
     (asleep w <> [] ->
        ClippedRecently w = true /\
        forall dt, (0 <= dt)%Z -> (0 + volumeClipWarningDuration <= now w + dt)%Z ->
          exists w', steps w [Elapse dt; Wake 0; Reset 0] = Some w' /\
                     ClippedRecently w' = false /\
                     asleep w' = [] /\ resetting w' = []) /\
     (resetting w <> [] ->
        ClippedRecently w = true /\
        (0 + volumeClipWarningDuration <= now w)%Z /\
        exists w', step w (Reset 0) = Some w' /\
                   ClippedRecently w' = false /\
                   asleep w' = [] /\ resetting w' = []) /\
     (asleep w = [] -> resetting w = [] ->
        ClippedRecently w = false /\ (0 + volumeClipWarningDuration <= now w)%Z)).
Proof.
  eexists. split; [reflexivity|].
  apply (single_clip_then_clear 0 [x80; xf0]
           [Elapse 2000000000; Period [x80]; Elapse 2000000000; Wake 0; Reset 0]);
    reflexivity.
Defined.

Lemma repeat_snoc (n : nat) : repeat true n ++ [true] = repeat true (S n).
Proof. induction n as [|n IH]; simpl; [reflexivity | now rewrite IH]. Qed.

Lemma set_true_last (n : nat) :
  set_true n (repeat true n ++ [false]) = repeat true (S n).
Proof.
  rewrite <- repeat_snoc.
  induction n as [|n IH]; simpl; [reflexivity | now rewrite IH].
Qed.

Lemma cell_of (n k : nat) :
  nth k (repeat true n ++ [false]) false = Nat.ltb k n.
Proof.
  revert k. induction n as [|n IH]; intros [|k]; simpl; try reflexivity.
  - now destruct k.
  - apply IH.
Qed.

Lemma holders_without (n i : nat) (g : sleeper) (gs : list sleeper) :
  nth_error gs i = Some g -> captured g <> n ->
  holders n (remove_nth i gs) = holders n gs.
Proof.
  revert i. induction gs as [|x gs IH]; intros [|i] Hg Hn; simpl in *;
    try discriminate.
  - injection Hg as ->. apply Nat.eqb_neq in Hn. now rewrite Hn.
  - rewrite (IH i Hg Hn). reflexivity.
Qed.

Lemma holders_taken (n i : nat) (g g0 : sleeper) (gs : list sleeper) :
  nth_error gs i = Some g -> captured g = n ->
  holders n gs = [g0] ->
  g = g0 /\ holders n (remove_nth i gs) = [].
Proof.
  revert i. induction gs as [|x gs IH]; intros [|i] Hg Hn Hone; simpl in *;
    try discriminate.
  - injection Hg as ->. apply Nat.eqb_eq in Hn. rewrite Hn in Hone.
    injection Hone as -> Hrest. auto.
  - destruct (Nat.eqb (captured x) n) eqn:Ex.
    + injection Hone as -> Hrest. exfalso.
      assert (In g (holders n gs)) as Hin.
      { apply filter_In. split; [eapply nth_error_In; eassumption|].
        now apply Nat.eqb_eq. }
      rewrite Hrest in Hin. contradiction.
    + exact (IH i Hg Hn Hone).
Qed.

Lemma holders_has (n i : nat) (g : sleeper) (gs : list sleeper) :
  nth_error gs i = Some g -> captured g = n -> holders n gs <> [].
Proof.
  intros Hg Hn Hnone.
  assert (In g (holders n gs)) as Hin.
  { apply filter_In. split; [eapply nth_error_In; eassumption|].
    now apply Nat.eqb_eq. }
  rewrite Hnone in Hin. contradiction.
Qed.

Lemma holders_none (n : nat) (gs : list sleeper) :
  Forall (fun g => (captured g <= n)%nat) gs -> holders (S n) gs = [].
Proof.
  induction 1 as [|g gs Hg _ IH]; simpl; [reflexivity|].
  destruct (Nat.eqb_spec (captured g) (S n)); [lia | exact IH].
Qed.

Lemma holders_app (n : nat) (gs hs : list sleeper) :
  holders n (gs ++ hs) = holders n gs ++ holders n hs.
Proof. apply filter_app. Qed.

Lemma holders_self (t : Z) (n : nat) :
  holders n [sleeper_of t n] = [sleeper_of t n].
Proof. unfold holders. simpl. now rewrite Nat.eqb_refl. Qed.

Lemma Forall_remove_nth {A : Type} (P : A -> Prop) (i : nat) (l : list A) :
  Forall P l -> Forall P (remove_nth i l).
Proof.
  intros H. revert i.
  induction H as [|x l Hx Hl IH]; intros [|i]; simpl; auto.
Qed.

Lemma Forall_nth_error {A : Type} (P : A -> Prop) (i : nat) (x : A)
    (l : list A) :
  Forall P l -> nth_error l i = Some x -> P x.
Proof.
  intros H Hx. rewrite Forall_forall in H. apply H.
  eapply nth_error_In. eassumption.
Qed.

Lemma weaker_bound (n : nat) (gs : list sleeper) :
  Forall (fun g => (captured g <= n)%nat) gs ->
  Forall (fun g => (captured g <= S n)%nat) gs.
Proof. apply Forall_impl. simpl. intros; lia. Qed.

Lemma first_arming (w : world) :
  untouched w -> armed 0 (now w) (IndicateClippingOccured w).
Proof.
  intros (Hc & Hp & Hs & Hr & Hf).
  unfold armed, IndicateClippingOccured. rewrite Hc, Hp, Hs, Hr. simpl.
  split; [reflexivity|]. split; [reflexivity|].
  split; [repeat constructor|]. split; [constructor|].
  split; [lia|]. left. split; reflexivity.
Qed.

Lemma next_arming (n : nat) (t : Z) (w : world) :
  armed n t w -> armed (S n) (now w) (IndicateClippingOccured w).
Proof.
  intros (Hc & Hp & Hs & Hr & Ht & _).
  unfold armed, IndicateClippingOccured. rewrite Hc, Hp. simpl.
  rewrite set_true_last, repeat_length.
  split; [reflexivity|]. split; [reflexivity|]. split.
  - apply Forall_app. split.
    + now apply weaker_bound.
    + constructor; [simpl; lia | constructor].
  - split; [now apply weaker_bound|].
    split; [lia|]. left. split.
    + rewrite holders_app, (holders_none n _ Hs). apply holders_self.
    + apply (holders_none n _ Hr).
Qed.

(** One event keeps what is tracked, with the clock and the last clip of
    [history]. *)
Lemma tracked_step (last : option Z) (w w' : world) (e : event) :
  tracked last w -> step w e = Some w' ->
  tracked (snd (history (now w) last [e])) w' /\
  now w' = fst (history (now w) last [e]).
Proof.
  intros Hw Hstep. destruct e as [dt | pSample | i | j]; simpl in *.
  - destruct (Z.leb_spec 0 dt) as [Hdt|]; [|discriminate].
    injection Hstep as <-. split; [|reflexivity].
    destruct last as [t|]; simpl in *; [|exact Hw].
    destruct Hw as (n & Hc & Hp & Hs & Hr & Ht & Hstate). exists n.
    unfold armed. simpl.
    split; [exact Hc|]. split; [exact Hp|]. split; [exact Hs|].
    split; [exact Hr|]. split; [lia|].
    destruct Hstate as [H1 | [(Ha & Hb & Hl) | (Ha & Hb & Hf & Hl)]];
      [left; exact H1 | right; left | right; right]; repeat split; auto; lia.
  - injection Hstep as <-. unfold callback.
    destruct (clips pSample); simpl; [|split; [exact Hw | reflexivity]].
    split; [|reflexivity].
    destruct last as [t|]; simpl in Hw.
    + destruct Hw as (n & Hn). exists (S n). now apply next_arming with t.
    + exists 0%nat. now apply first_arming.
  - split; [|destruct (nth_error (asleep w) i) as [g|]; [|discriminate];
             destruct (wake_from g <=? now w)%Z; [|discriminate];
             now injection Hstep as <-].
    destruct last as [t|]; simpl in Hw.
    + destruct Hw as (n & Hc & Hp & Hs & Hr & Ht & Hstate).
      destruct (nth_error (asleep w) i) as [g|] eqn:Hg; [|discriminate].
      destruct (Z.leb_spec (wake_from g) (now w)) as [Hlate|]; [|discriminate].
      injection Hstep as <-. exists n.
      pose proof (Forall_nth_error _ _ _ _ Hs Hg) as Hle. simpl in Hle.
      unfold armed, test. simpl. rewrite Hc, cell_of.
      split; [reflexivity|]. split; [exact Hp|].
      split; [now apply Forall_remove_nth|].
      destruct (Nat.ltb_spec (captured g) n) as [Hold | Hcur].
      * split; [exact Hr|]. split; [exact Ht|].
        rewrite (holders_without n i g) by (auto; lia). exact Hstate.
      * assert (captured g = n) as Hn by lia.
        split; [apply Forall_app; split; [exact Hr | repeat constructor; lia]|].
        split; [exact Ht|].
        destruct Hstate as [(Hone & Hnone) | [(Ha & _) | (Ha & _)]];
          try (exfalso; exact (holders_has n i g _ Hg Hn Ha)).
        destruct (holders_taken n i g _ _ Hg Hn Hone) as [-> Hrest].
        right; left. rewrite holders_app, Hnone, holders_self.
        simpl in Hlate. auto.
    + destruct Hw as (_ & _ & Hs & _). rewrite Hs in Hstep.
      destruct i; discriminate.
  - split; [|destruct (nth_error (resetting w) j) as [g|]; [|discriminate];
             now injection Hstep as <-].
    destruct last as [t|]; simpl in Hw.
    + destruct Hw as (n & Hc & Hp & Hs & Hr & Ht & Hstate).
      destruct (nth_error (resetting w) j) as [g|] eqn:Hg; [|discriminate].
      injection Hstep as <-. exists n.
      pose proof (Forall_nth_error _ _ _ _ Hr Hg) as Hle. simpl in Hle.
      unfold armed, reset. simpl.
      split; [exact Hc|]. split; [exact Hp|]. split; [exact Hs|].
      split; [now apply Forall_remove_nth|]. split; [exact Ht|].
      destruct (Nat.eq_dec (captured g) n) as [Hn | Hold].
      * destruct Hstate as [(_ & Hb) | [(Ha & Hone & Hl) | (_ & Hb & _)]];
          try (exfalso; exact (holders_has n j g _ Hg Hn Hb)).
        destruct (holders_taken n j g _ _ Hg Hn Hone) as [_ Hrest].
        right; right. auto.
      * rewrite (holders_without n j g) by auto.
        destruct Hstate as [H1 | [H2 | (Ha & Hb & _ & Hl)]]; auto.
        right; right. auto.
    + destruct Hw as (_ & _ & _ & Hr & _). rewrite Hr in Hstep.
      destruct j; discriminate.
Qed.

Lemma history_app (es1 es2 : list event) :
  forall t last,
    history t last (es1 ++ es2)
    = history (fst (history t last es1)) (snd (history t last es1)) es2.
Proof.
  induction es1 as [|e rest IH]; intros t last; simpl; [reflexivity|].
  destruct e; apply IH.
Qed.

Lemma tracked_steps (es : list event) :
  forall (last : option Z) (w w' : world),
    tracked last w -> steps w es = Some w' ->
    tracked (snd (history (now w) last es)) w' /\
    now w' = fst (history (now w) last es).
Proof.
  induction es as [|e rest IH]; intros last w w' Hw Hrun; simpl in Hrun.
  - injection Hrun as <-. simpl. auto.
  - destruct (step w e) as [w1|] eqn:Hstep; [|discriminate].
    destruct (tracked_step last w w1 e Hw Hstep) as [H1 Hnow].
    destruct (IH _ w1 w' H1 Hrun) as [H2 Hnow'].
    change (e :: rest) with ([e] ++ rest). rewrite history_app.
    rewrite <- Hnow. auto.
Qed.

Lemma tracked_start (t0 : Z) : tracked None (start t0).
Proof. unfold tracked, untouched. simpl. auto. Qed.
Lemma armed_cell (n m : nat) (t u : Z) (w : world) :
  armed n t w -> armed m u w -> n = m.
Proof.
  intros (_ & Hn & _) (_ & Hm & _). congruence.
Qed.

(** One event that does not fall between a test and an assignment keeps
    [calm]. *)
Lemma calm_step (last : option Z) (w w' : world) (e : event) :
  tracked_calm last w -> unraced w [e] = true -> step w e = Some w' ->
  tracked_calm (snd (history (now w) last [e])) w'.
Proof.
  intros Hw Hfree Hstep.
  assert (tracked last w) as Ht.
  { destruct last; simpl in *; [|exact Hw].
    destruct Hw as (n & Ha & _). now exists n. }
  destruct (tracked_step last w w' e Ht Hstep) as [Ht' _].
  destruct (snd (history (now w) last [e])) as [t'|] eqn:Hlast;
    simpl in *; [|exact Ht'].
  destruct Ht' as (n' & Ha'). exists n'. split; [exact Ha'|].
  destruct e as [dt | pSample | i | j]; simpl in *.
  - destruct (0 <=? dt)%Z; [|discriminate]. injection Hstep as <-.
    destruct last as [t|]; [|discriminate].
    destruct Hw as (n & Ha & Hcalm).
    assert (n = n') as <-.
    { destruct Ha as (_ & Hp & _), Ha' as (_ & Hp' & _). simpl in Hp'.
      congruence. }
    exact Hcalm.
  - injection Hstep as <-. unfold callback in *.
    destruct (clips pSample); simpl in *.
    + destruct (resetting w) eqn:Hr; [|discriminate].
      unfold calm, IndicateClippingOccured. simpl. rewrite Hr.
      split; [constructor | reflexivity].
    + destruct last as [t|]; [|discriminate].
      destruct Hw as (n & Ha & Hcalm).
      now rewrite <- (armed_cell n n' t t' w Ha Ha').
  - destruct last as [t|]; [|discriminate].
    destruct Hw as (n & Ha & Hall & Hup).
    destruct (nth_error (asleep w) i) as [g|] eqn:Hg; [|discriminate].
    destruct (wake_from g <=? now w)%Z; [|discriminate].
    injection Hstep as <-.
    assert (n = n') as <-.
    { destruct Ha as (_ & Hp & _), Ha' as (_ & Hp' & _). simpl in Hp'.
      congruence. }
    destruct Ha as (Hc & Hp & Hs & Hr & _ & _).
    pose proof (Forall_nth_error _ _ _ _ Hs Hg) as Hle. simpl in Hle.
    unfold calm, test. simpl. rewrite Hc, cell_of.
    destruct (Nat.ltb_spec (captured g) n) as [Hold | Hcur].
    + split; [exact Hall|].
      rewrite (holders_without n i g) by (auto; lia). exact Hup.
    + assert (captured g = n) as Hn by lia. split.
      * apply Forall_app. split; [exact Hall | repeat constructor; exact Hn].
      * intros _. apply Hup. intros Hnil.
        apply app_eq_nil in Hnil. destruct Hnil as [Hnil _].
        exact (holders_has n i g _ Hg Hn Hnil).
  - destruct last as [t|]; [|discriminate].
    destruct Hw as (n & Ha & Hall & Hup).
    destruct (nth_error (resetting w) j) as [g|] eqn:Hg; [|discriminate].
    injection Hstep as <-.
    assert (n = n') as <-.
    { destruct Ha as (_ & Hp & _), Ha' as (_ & Hp' & _). simpl in Hp'.
      congruence. }
    pose proof (Forall_nth_error _ _ _ _ Hall Hg) as Hn. simpl in Hn.
    unfold calm, reset. simpl.
    split; [now apply Forall_remove_nth|].
    intros Hsome. exfalso. apply Hsome.
    destruct Ha' as (_ & _ & _ & _ & _ & Hstate). simpl in Hstate.
    destruct Ha as (_ & _ & _ & _ & _ & Hold).
    destruct Hold as [(_ & Hb) | [(Ha0 & Hone & _) | (_ & Hb & _)]];
      try (exfalso; exact (holders_has n j g _ Hg Hn Hb)).
    destruct (holders_taken n j g _ _ Hg Hn Hone) as [_ Hrest].
    now rewrite Ha0, Hrest.
Qed.

Lemma unraced_cons (w w' : world) (e : event) (rest : list event) :
  unraced w (e :: rest) = true -> step w e = Some w' ->
  unraced w [e] = true /\ unraced w' rest = true.
Proof.
  simpl. intros H Hstep. rewrite Hstep in *.
  apply andb_prop in H. destruct H as [H1 H2].
  rewrite H1. auto.
Qed.

Lemma calm_steps (es : list event) :
  forall (last : option Z) (w w' : world),
    tracked_calm last w -> unraced w es = true -> steps w es = Some w' ->
    tracked_calm (snd (history (now w) last es)) w' /\
    now w' = fst (history (now w) last es).
Proof.
  induction es as [|e rest IH]; intros last w w' Hw Hfree Hrun; simpl in Hrun.
  - injection Hrun as <-. simpl. auto.
  - destruct (step w e) as [w1|] eqn:Hstep; [|discriminate].
    destruct (unraced_cons w w1 e rest Hfree Hstep) as [H1 Hrest].
    pose proof (calm_step last w w1 e Hw H1 Hstep) as Hw1.
    assert (tracked last w) as Ht.
    { destruct last; simpl in *; [|exact Hw].
      destruct Hw as (n & Ha & _). now exists n. }
    destruct (tracked_step last w w1 e Ht Hstep) as [_ Hnow].
    destruct (IH _ w1 w' Hw1 Hrest Hrun) as [H2 Hnow'].
    change (e :: rest) with ([e] ++ rest). rewrite history_app.
    rewrite <- Hnow. auto.
Qed.

(** Whatever the events, clip events, returns of sleeps and assignments
    among them: the clock of the tracker is that of the events, and before
    any clip event the tracker is Clear.  When no clip event falls between
    the test of a goroutine and its assignment, the tracker is in
    ClippedRecently at every instant earlier than
    [volumeClipWarningDuration] after the most recent clip event.  When one
    does, it need not be: after a clip event at 0, the return of the sleep
    and the test at three seconds, a clip event then, and the assignment of
    the goroutine of the first call, the tracker is Clear at the very instant
    of the second clip event. *)
Theorem clip_window_restarts (t0 : Z) (es : list event) (w : world)
    (Hrun : steps (start t0) es = Some w) :
  now w = fst (history t0 None es) /\
  (snd (history t0 None es) = None -> ClippedRecently w = false) /\
  (unraced (start t0) es = true ->
   forall t, snd (history t0 None es) = Some t ->
     (t <= now w)%Z /\
     ((now w < t + volumeClipWarningDuration)%Z -> ClippedRecently w = true)) /\
  (exists w',
      steps (start 0)
            [Period [xf0]; Elapse 3000000000; Wake 0; Period [xf0]; Reset 0]
        = Some w' /\
      snd (history 0 None
             [Period [xf0]; Elapse 3000000000; Wake 0; Period [xf0]; Reset 0])
        = Some 3000000000%Z /\
      now w' = 3000000000%Z /\
      ClippedRecently w' = false).
Proof.
  destruct (tracked_steps es None (start t0) w (tracked_start t0) Hrun)
    as [Hw Hnow].
  simpl in Hw, Hnow.
  split; [exact Hnow|]. split; [|split].
  - intros Hnone. rewrite Hnone in Hw. simpl in Hw.
    now destruct Hw as (_ & _ & _ & _ & Hf).
  - intros Hfree t Hlast.
    destruct (calm_steps es None (start t0) w (tracked_start t0) Hfree Hrun)
      as [Hc _].
    simpl in Hc. rewrite Hlast in Hc. simpl in Hc.
    destruct Hc as (n & (_ & _ & _ & _ & Ht & Hstate) & _ & Hup).
    split; [exact Ht|]. intros Hearly. apply Hup.
    destruct Hstate as [(Hone & _) | [(_ & _ & Hl) | (_ & _ & _ & Hl)]];
      [|lia|lia].
    rewrite Hone. discriminate.
  - eexists. repeat split.
Qed.

(** The theorem for two clip events one second apart: 3.5 seconds after
    the first, when the goroutine of the first call has found its variable
    set and ended, the tracker is still in ClippedRecently. *)
Lemma clip_window_restarts_witness :
  exists w,
    steps (start 0)
          [Period [xf0]; Elapse 1000000000; Period [xf0];
           Elapse 2500000000; Wake 0] = Some w /\
    unraced (start 0)
          [Period [xf0]; Elapse 1000000000; Period [xf0];
           Elapse 2500000000; Wake 0] = true /\
    ClippedRecently w = true /\
    (now w = fst (history 0 None
                    [Period [xf0]; Elapse 1000000000; Period [xf0];
                     Elapse 2500000000; Wake 0]) /\
     (snd (history 0 None
             [Period [xf0]; Elapse 1000000000; Period [xf0];
              Elapse 2500000000; Wake 0]) = None -> ClippedRecently w = false) /\
     (unraced (start 0)
          [Period [xf0]; Elapse 1000000000; Period [xf0];
           Elapse 2500000000; Wake 0] = true ->
      forall t,
        snd (history 0 None
               [Period [xf0]; Elapse 1000000000; Period [xf0];
                Elapse 2500000000; Wake 0]) = Some t ->
        (t <= now w)%Z /\
        ((now w < t + volumeClipWarningDuration)%Z -> ClippedRecently w = true)) /\
     (exists w',
         steps (start 0)
               [Period [xf0]; Elapse 3000000000; Wake 0; Period [xf0]; Reset 0]
           = Some w' /\
         snd (history 0 None
                [Period [xf0]; Elapse 3000000000; Wake 0; Period [xf0]; Reset 0])
           = Some 3000000000%Z /\
         now w' = 3000000000%Z /\
         ClippedRecently w' = false)).
Proof.
  eexists. split; [reflexivity|]. split; [reflexivity|]. split; [reflexivity|].
  apply (clip_window_restarts 0
           [Period [xf0]; Elapse 1000000000; Period [xf0];
            Elapse 2500000000; Wake 0]).
  reflexivity.
Defined.

(** Whatever the events.  A goroutine that tests its variable after a
    later call has set it ends without an assignment.  Whenever the tracker
    is in ClippedRecently, the goroutine of the most recent call has not yet
    assigned: it sleeps, and from the duration after the most recent clip
    event on its sleep can return and it can test and assign; or it has
    passed its test and can assign; either way the tracker gets to Clear, so
    that it is never stuck in ClippedRecently.  And a goroutine that has
    passed its test assigns whatever happens next: a clip event before its
    assignment leaves the tracker Clear at the very instant of that clip
    event. *)
Theorem only_last_reset_clears (t0 : Z) (es : list event) (w : world)
    (Hrun : steps (start t0) es = Some w) :
  (forall (i : nat) (g : sleeper) (w' : world),
      nth_error (asleep w) i = Some g ->
      cancelPendingReset w <> Some (captured g) ->
      step w (Wake i) = Some w' ->
      ClippedRecently w' = ClippedRecently w /\ resetting w' = resetting w) /\
  (ClippedRecently w = true ->
   exists (n : nat) (t : Z),
     snd (history t0 None es) = Some t /\
     cancelPendingReset w = Some n /\
     ((exists i,
          nth_error (asleep w) i = Some (sleeper_of t n) /\
          forall dt : Z,
            (0 <= dt)%Z -> (t + volumeClipWarningDuration <= now w + dt)%Z ->
            exists w',
              steps w [Elapse dt; Wake i; Reset (List.length (resetting w))]
                = Some w' /\
              ClippedRecently w' = false) \/
      (exists j,
          nth_error (resetting w) j = Some (sleeper_of t n) /\
          (t + volumeClipWarningDuration <= now w)%Z /\
          exists w', step w (Reset j) = Some w' /\ ClippedRecently w' = false))) /\
  (forall (j : nat) (g : sleeper) (pSample : list uint8),
      nth_error (resetting w) j = Some g ->
      clips pSample = true ->
      exists w',
        steps w [Period pSample; Reset j] = Some w' /\
        now w' = now w /\
        snd (history t0 None (es ++ [Period pSample; Reset j])) = Some (now w) /\
        ClippedRecently w' = false).
Proof.
  destruct (tracked_steps es None (start t0) w (tracked_start t0) Hrun)
    as [Hw Hnow].
  simpl in Hw, Hnow.
  split; [|split].
  - intros i g w' Hg Hother Hstep. simpl in Hstep. rewrite Hg in Hstep.
    destruct (wake_from g <=? now w)%Z; [|discriminate].
    injection Hstep as <-. unfold test. simpl.
    split; [reflexivity|].
    destruct (snd (history t0 None es)) as [t|]; simpl in Hw.
    + destruct Hw as (n & Hc & Hp & Hs & _).
      pose proof (Forall_nth_error _ _ _ _ Hs Hg) as Hle. simpl in Hle.
      rewrite Hc, cell_of. rewrite Hp in Hother.
      destruct (Nat.ltb_spec (captured g) n) as [Hold | Hcur]; [reflexivity|].
      exfalso. apply Hother. f_equal. lia.
    + destruct Hw as (_ & _ & Hs & _). rewrite Hs in Hg.
      destruct i; discriminate.
  - intros Hflag.
    destruct (snd (history t0 None es)) as [t|]; simpl in Hw.
    + destruct Hw as (n & Hc & Hp & Hs & Hr & Ht & Hstate).
      exists n, t. split; [reflexivity|]. split; [exact Hp|].
      destruct Hstate as [(Hone & _) | [(_ & Hone & Hl) | (_ & _ & Hf & _)]];
        [| |congruence].
      * left.
        assert (In (sleeper_of t n) (asleep w)) as Hin.
        { apply (filter_In (fun g => Nat.eqb (captured g) n)).
          fold (holders n (asleep w)). rewrite Hone. now left. }
        destruct (In_nth_error _ _ Hin) as [i Hi].
        exists i. split; [exact Hi|].
        intros dt Hdt Hlate. simpl.
        destruct (Z.leb_spec 0 dt); [|lia]. simpl. rewrite Hi. simpl.
        destruct (Z.leb_spec (t + volumeClipWarningDuration) (now w + dt)); [|lia].
        simpl. rewrite Hc, cell_of, Nat.ltb_irrefl.
        rewrite nth_error_app2 by lia.
        rewrite Nat.sub_diag. simpl.
        eexists. split; reflexivity.
      * right.
        assert (In (sleeper_of t n) (resetting w)) as Hin.
        { apply (filter_In (fun g => Nat.eqb (captured g) n)).
          fold (holders n (resetting w)). rewrite Hone. now left. }
        destruct (In_nth_error _ _ Hin) as [j Hj].
        exists j. split; [exact Hj|]. split; [exact Hl|].
        simpl. rewrite Hj. eexists. split; reflexivity.
    + destruct Hw as (_ & _ & _ & _ & Hf). congruence.
  - intros j g pSample Hg Hclip. simpl. unfold callback. rewrite Hclip.
    simpl. rewrite Hg. eexists. split; [reflexivity|]. simpl.
    split; [reflexivity|]. split; [|reflexivity].
    rewrite history_app. simpl. rewrite Hclip. simpl. now rewrite Hnow.
Qed.

(** The theorem at a moment when a goroutine has passed its test: after a
    clip event and the return of its sleep three seconds later. *)
Lemma only_last_reset_clears_witness :
  exists w,
    steps (start 0) [Period [xf0]; Elapse 3000000000; Wake 0] = Some w /\
    resetting w = [sleeper_of 0 0] /\
    ((forall (i : nat) (g : sleeper) (w' : world),
         nth_error (asleep w) i = Some g ->
         cancelPendingReset w <> Some (captured g) ->
         step w (Wake i) = Some w' ->
         ClippedRecently w' = ClippedRecently w /\ resetting w' = resetting w) /\
     (ClippedRecently w = true ->
      exists (n : nat) (t : Z),
        snd (history 0 None [Period [xf0]; Elapse 3000000000; Wake 0]) = Some t /\
        cancelPendingReset w = Some n /\
        ((exists i,
             nth_error (asleep w) i = Some (sleeper_of t n) /\
             forall dt : Z,
               (0 <= dt)%Z -> (t + volumeClipWarningDuration <= now w + dt)%Z ->
               exists w',
                 steps w [Elapse dt; Wake i; Reset (List.length (resetting w))]
                   = Some w' /\
                 ClippedRecently w' = false) \/
         (exists j,
             nth_error (resetting w) j = Some (sleeper_of t n) /\
             (t + volumeClipWarningDuration <= now w)%Z /\
             exists w', step w (Reset j) = Some w' /\
                        ClippedRecently w' = false))) /\
     (forall (j : nat) (g : sleeper) (pSample : list uint8),
         nth_error (resetting w) j = Some g ->
         clips pSample = true ->
         exists w',
           steps w [Period pSample; Reset j] = Some w' /\
           now w' = now w /\
           snd (history 0 None
                  ([Period [xf0]; Elapse 3000000000; Wake 0]
                   ++ [Period pSample; Reset j])) = Some (now w) /\
           ClippedRecently w' = false)).
Proof.
  eexists. split; [reflexivity|]. split; [reflexivity|].
  apply (only_last_reset_clears 0 [Period [xf0]; Elapse 3000000000; Wake 0]).
  reflexivity.
Defined.
End ClipAnyEvents.

(** ** The other ends of [Execute] *)

Section OtherEnds.
Import Shutdown StartFailure Cause.


Ltac paths :=
  unfold shutdown_path in *; simpl in *;
  rewrite ?filter_app; simpl; rewrite ?app_nil_r;
  intuition (try congruence).

Lemma only_logs (es : list effect) :
  forallb is_log es = true -> shutdown_path es = [].
Proof.
  induction es as [|e es IH]; simpl; [reflexivity|].
  intros H. apply andb_prop in H. destruct H as [He Hes].
  unfold shutdown_path in *. simpl. rewrite He. simpl. auto.
Qed.

Lemma logs_only (es : list effect) :
  shutdown_path es = [] -> forallb is_log es = true.
Proof.
  induction es as [|e es IH]; simpl; [reflexivity|].
  unfold shutdown_path in *. simpl.
  destruct (is_log e); simpl; [exact IH | discriminate].
Qed.

Lemma logs_snoc (es : list effect) (e : effect) :
  forallb is_log es = true -> is_log e = true ->
  forallb is_log (es ++ [e]) = true.
Proof.
  intros Hes He. rewrite forallb_app, Hes. simpl. now rewrite He.
Qed.

Lemma failing_step (answer : option string) (err : string) (panics : bool)
    (p : process) (c : choice) :
  failing err p -> failing err (step (refused answer err panics) p c).
Proof.
  intros Hp. unfold step.
  destruct (status p) eqn:Hst; [exact Hp|].
  unfold failing in *.
  destruct p as [m u d eff st]; simpl in *. subst st.
  destruct c as [| |s]; unfold main_step, ui_step, deliver, offer, refused;
    simpl.
  - destruct m; simpl in *; try contradiction.
    + destruct Hp as (-> & _ & Hpath). repeat split; auto. discriminate.
    + destruct Hp as (Hu & _ & Hpath). split; [exact Hu|]. split; [reflexivity|].
      exists eff, []. split; [reflexivity|].
      split; [now apply logs_only | reflexivity].
    + destruct Hp as (Hu & _ & before & between & -> & Hb & Hbt).
      split; [reflexivity|]. exists before, between.
      rewrite <- app_assoc. simpl. auto.
    + destruct Hp as (Hn & _). discriminate.
  - destruct m; simpl in *; try contradiction.
    + destruct Hp as (-> & Hrest). simpl. auto.
    + destruct Hp as (Hu & Hn & Hpath).
      destruct u as [| |e| |]; try congruence; simpl.
      * destruct answer; simpl; repeat split; auto; discriminate.
      * repeat split; auto; try discriminate.
        unfold shutdown_path in *. rewrite filter_app, Hpath. reflexivity.
      * destruct d; simpl; repeat split; auto; discriminate.
      * repeat split; auto.
    + destruct Hp as (Hu & Hn & before & between & -> & Hb & Hbt).
      destruct u as [| |e| |]; try congruence; simpl.
      * destruct answer; simpl; (split; [discriminate|]);
          (split; [reflexivity|]); exists before, between; auto.
      * split; [discriminate|]. split; [reflexivity|].
        exists before, (between ++ [Log (String.append "closed unsuccessfully: " e)]).
        rewrite <- app_assoc. simpl. repeat split; auto.
        now apply logs_snoc.
      * destruct d; simpl; (split; [discriminate|]);
          (split; [reflexivity|]); exists before, between; auto.
      * split; [discriminate|]. split; [reflexivity|].
        exists before, between; auto.
    + destruct Hp as (Hn & _). discriminate.
  - destruct m, d; simpl in *; try contradiction; auto.
Qed.

Lemma failing_run (answer : option string) (err : string) (panics : bool)
    (cs : list choice) :
  forall p, failing err p -> failing err (run (refused answer err panics) p cs).
Proof.
  induction cs as [|c rest IH]; intros p Hp; simpl; [exact Hp|].
  apply IH, failing_step, Hp.
Qed.

Lemma failing_initial (err : string) : failing err initial.
Proof. unfold failing. simpl. auto. Qed.

Lemma failing_path (err : string) (p : process) :
  failing err p ->
  shutdown_path (effects p) = [] \/ shutdown_path (effects p) = [Exit 1].
Proof.
  unfold failing. destruct (main p); try contradiction.
  - intros (_ & _ & H). now left.
  - intros (_ & _ & H). now left.
  - intros (_ & _ & before & between & -> & Hb & Hbt). left.
    apply only_logs. rewrite forallb_app, Hb. simpl. exact Hbt.
  - intros (_ & before & between & -> & Hb & Hbt). right.
    unfold shutdown_path.
    rewrite filter_app. simpl. rewrite filter_app. simpl.
    fold (shutdown_path before). fold (shutdown_path between).
    now rewrite (only_logs _ Hb), (only_logs _ Hbt).
Qed.

Lemma failing_ends (answer : option string) (err : string) (panics : bool)
    (p : process) :
  failing err p ->
  status (run (refused answer err panics) p [Main; Main; Main]) = Some 1%Z.
Proof.
  unfold failing. destruct p as [m u d eff st]. cbn [main ui status effects].
  destruct m; try contradiction.
  - intros (_ & -> & _). reflexivity.
  - intros (_ & -> & _). reflexivity.
  - intros (_ & -> & _). reflexivity.
  - intros (-> & _). reflexivity.
Qed.

(** [device.Start] fails with [err], whatever [Run] answers, whatever the
    order of the steps and whatever signals arrive: as long as the process
    has not exited, nothing of the shutdown has happened; once it has, its
    status is 1, it has handed the message of the failure to the logger and
    then exited, with nothing in between but messages of the UI goroutine;
    and neither [device.Uninit()] nor [app.Stop()] was ever called.  Three
    steps of the main goroutine are enough to get there. *)
Theorem start_failure_exits_1 (answer : option string) (err : string)
    (panics : bool) (cs : list choice) :
  (status (run (refused answer err panics) initial cs) = None ->
   shutdown_path (effects (run (refused answer err panics) initial cs)) = []) /\
  (forall code,
      status (run (refused answer err panics) initial cs) = Some code ->
      code = 1%Z /\
      exists before between,
        effects (run (refused answer err panics) initial cs)
        = before ++ failure err :: between ++ [Exit 1] /\
        forallb is_log before = true /\ forallb is_log between = true) /\
  ~ In DeviceUninit (effects (run (refused answer err panics) initial cs)) /\
  ~ In AppStop (effects (run (refused answer err panics) initial cs)) /\
  status (run (refused answer err panics)
              (run (refused answer err panics) initial cs)
              [Main; Main; Main]) = Some 1%Z.
Proof.
  pose proof (failing_run answer err panics cs initial (failing_initial err))
    as Hf.
  set (p := run (refused answer err panics) initial cs) in *.
  pose proof (failing_path err p Hf) as Hpath.
  assert (forall e, is_log e = false -> In e (effects p) ->
                    In e (shutdown_path (effects p))) as Hin.
  { intros e He Hi. apply filter_In. split; [exact Hi|]. now rewrite He. }
  split; [|split; [|split; [|split]]].
  - intros Hst. unfold failing in Hf.
    destruct (main p); try contradiction.
    + now destruct Hf as (_ & _ & H).
    + now destruct Hf as (_ & _ & H).
    + destruct Hf as (_ & _ & before & between & -> & Hb & Hbt).
      apply only_logs. rewrite forallb_app, Hb. simpl. exact Hbt.
    + destruct Hf as (H & _). congruence.
  - intros code Hst. unfold failing in Hf.
    destruct (main p); try contradiction;
      try (destruct Hf as (_ & Hn & _); congruence).
    destruct Hf as (Hone & Hlast). split; [congruence | exact Hlast].
  - intros Hi. apply (Hin DeviceUninit eq_refl) in Hi.
    destruct Hpath as [H | H]; rewrite H in Hi; simpl in Hi;
      intuition discriminate.
  - intros Hi. apply (Hin AppStop eq_refl) in Hi.
    destruct Hpath as [H | H]; rewrite H in Hi; simpl in Hi;
      intuition discriminate.
  - exact (failing_ends answer err panics p Hf).
Qed.











(** The whole of [Execute], whatever the collaborators answer and whatever
    the order of the steps.  When [flag.Parse] refuses the command line the
    process exits with the status of [flag.Parse], having done nothing else.
    Otherwise a process that has exited has exited with status 0, 1 or 2:
    with 1 exactly when the version was not asked for and one of
    [malgo.InitContext], [malgo.InitDevice] and [device.Start] failed; with
    2 exactly when the version was not asked for, none of them failed and
    [app.Stop()] panicked.  With the version flag the program prints the
    version and exits before it touches the audio context; the device is
    initialized only when the context was. *)
Theorem exit_status_of_Execute (a : Startup.answers) (cs : list choice) :
  (forall code,
      Startup.flag_parse a = Some code ->
      Startup.exit_status a cs = Some code /\
      fst (Startup.prologue a) = [Startup.Usage; Startup.Exit code]) /\
  (Startup.flag_parse a = None ->
   forall code,
     Startup.exit_status a cs = Some code ->
     (code = 0%Z \/ code = 1%Z \/ code = 2%Z) /\
     (code = 1%Z <-> Startup.flagVersion a = false /\ Startup.fails a = true) /\
     (code = 2%Z <-> Startup.flagVersion a = false /\ Startup.fails a = false /\
                     Startup.stop_panics a = true)) /\
  (Startup.flag_parse a = None -> Startup.flagVersion a = true ->
   Startup.exit_status a cs = Some 0%Z /\
   ~ In Startup.InitContext (fst (Startup.prologue a))) /\
  (In Startup.InitDevice (fst (Startup.prologue a)) ->
   In Startup.InitContext (fst (Startup.prologue a)) /\
   snd (Startup.prologue a) = true).
Proof.
  unfold Startup.exit_status, Startup.prologue, Startup.fails.
  destruct a as [fp v ver ce de re se sp]; simpl.
  destruct fp as [c|]; simpl.
  { split; [|split; [|split]].
    - intros code [= <-]. auto.
    - discriminate.
    - discriminate.
    - intros [H|[H|[]]]; discriminate. }
  split; [discriminate|].
  destruct v; simpl.
  { split; [|split].
    - intros _ code [= <-]. split; [auto|]. split.
      + split; [discriminate|]. intros [H _]. discriminate.
      + split; [discriminate|]. intros [H _]. discriminate.
    - intros _ _. split; [reflexivity|]. intros [H|[H|[]]]; discriminate.
    - intros [H|[H|[]]]; discriminate. }
  destruct ce as [cerr|]; simpl.
  { split; [|split].
    - intros _ code [= <-]. split; [auto|]. split; [tauto|].
      split; [discriminate|]. intros (_ & H & _). discriminate.
    - discriminate.
    - intros [H|[H|[]]]; discriminate. }
  destruct de as [derr|]; simpl.
  { split; [|split].
    - intros _ code [= <-]. split; [auto|]. split; [tauto|].
      split; [discriminate|]. intros (_ & H & _). discriminate.
    - discriminate.
    - intros [H|[H|[H|[]]]]; discriminate. }
  split; [|split; [discriminate | auto]].
  intros _ code Hcode. unfold Startup.environment in Hcode. simpl in Hcode.
  destruct se as [serr|].
  - pose proof (failing_run re serr sp cs initial (failing_initial serr)) as Hf.
    change (refused re serr sp)
      with {| run_error := re; start_error := Some serr; stop_panics := sp |}
      in Hf.
    unfold failing in Hf.
    destruct (main (run {| run_error := re; start_error := Some serr;
                           stop_panics := sp |} initial cs));
      try contradiction; try (destruct Hf as (_ & Hn & _); congruence).
    destruct Hf as (H1 & _). assert (code = 1%Z) as -> by congruence.
    split; [auto|]. split; [tauto|].
    split; [discriminate|]. intros (_ & H & _). discriminate.
  - pose proof (sound_run re sp cs initial (sound_initial _ _)) as Hs.
    change (started re sp)
      with {| run_error := re; start_error := None; stop_panics := sp |} in Hs.
    destruct Hs as (_ & Hst & _). rewrite Hst in Hcode.
    destruct (main (run {| run_error := re; start_error := None;
                           stop_panics := sp |} initial cs));
      try discriminate.
    injection Hcode as <-. destruct sp; simpl.
    + split; [auto|]. split; [|tauto].
      split; [discriminate | intros [_ H]; discriminate].
    + split; [auto|]. split.
      * split; [discriminate | intros [_ H]; discriminate].
      * split; [discriminate | intros (_ & _ & H); discriminate].
Qed.
End OtherEnds.

(** ** The order of the displayed values *)

Lemma throttle_mono_raw (prev r1 r2 : Q) :
  r1 <= r2 -> volumeDisplayed prev r1 <= volumeDisplayed prev r2.
Proof.
  intros H. exact_throttle. by_cases_Qltb; lra.
Qed.

Lemma throttle_mono_prev (p1 p2 raw : Q) :
  p1 <= p2 -> volumeDisplayed p1 raw <= volumeDisplayed p2 raw.
Proof.
  intros H. exact_throttle. by_cases_Qltb; lra.
Qed.

Lemma fillerLength_antitone (v1 v2 : Q) (n : Z) :
  (0 <= n)%Z -> v1 <= v2 -> (fillerLength v2 n <= fillerLength v1 n)%Z.
Proof.
  intros Hn Hv.
  change (Qfloor ((1 - v2) * inject_Z n) <= Qfloor ((1 - v1) * inject_Z n))%Z.
  apply Qfloor_resp_le. rewrite Zle_Qle in Hn.
  remember (inject_Z n) as k eqn:Ek in *. clear Ek.
  unfold inject_Z in Hn. nra.
Qed.

(** In exact arithmetic the callback keeps the order: from the same
    previous value a larger volume never gives a smaller displayed value,
    with the same volume a larger previous value never gives a smaller
    displayed value, and samples added to a period never make the filler
    longer.  In binary64 the order is kept up to a rounding only: after a
    period of peak 26 and a period of peak 255 the displayed value is
    0.062240832956088732; from there a silent period gives
    0.012240832956088729 and a period of peak 26 gives 0.012240832956088726,
    which is smaller. *)
Theorem throttle_keeps_order :
  (forall prev r1 r2 : Q,
      r1 <= r2 -> volumeDisplayed prev r1 <= volumeDisplayed prev r2) /\
  (forall p1 p2 raw : Q,
      p1 <= p2 -> volumeDisplayed p1 raw <= volumeDisplayed p2 raw) /\
  (forall (prev : Q) (a b : list uint8) (barHeight : Z),
      (0 <= barHeight)%Z ->
      Data prev a <= Data prev (a ++ b) /\
      (fillerLength (Data prev (a ++ b)) barHeight
       <= fillerLength (Data prev a) barHeight)%Z) /\
  (u8 (maxSample [x00]) < u8 (maxSample [x1a]))%Z /\
  PrimFloat.ltb (Data (run (F:=float) [[x1a]; [xff]]) [x1a])
                (Data (run (F:=float) [[x1a]; [xff]]) [x00]) = true /\
  B64.to_Q (Data (run (F:=float) [[x1a]; [xff]]) [x1a])
  < B64.to_Q (Data (run (F:=float) [[x1a]; [xff]]) [x00]).
Proof.
  split; [exact throttle_mono_raw|]. split; [exact throttle_mono_prev|].
  split; [|repeat split].
  intros prev a b n Hn.
  assert (Data prev a <= Data prev (a ++ b)) as Hd.
  { unfold Data. apply throttle_mono_raw, volume_exact_mono.
    unfold maxSample. rewrite fold_left_app.
    rewrite (u8_loop b (fold_left louder a x00)). lia. }
  split; [exact Hd | now apply fillerLength_antitone].
Qed.
